(** * internal/utils/utils.go of terraform-provider-civo

    A shallow embedding of the validation helpers, the ID parser, the
    string-to-int coercion and the retry loop of [package utils], together
    with the properties stated about them.

    Go strings are byte strings: they are embedded as [string] (a sequence of
    8-bit [ascii]), so [String.length] is Go's [len].  Go's [int] and
    [time.Duration] are embedded as [Z]; a nil [error] is [None]. *)

From Stdlib Require Import ZArith List Bool Ascii String Lia.
From Stdlib Require Import Numbers.DecimalString Numbers.DecimalPos.
From Stdlib Require Import Sorting.Sorted Sorting.Permutation.
Import ListNotations.

Local Open Scope string_scope.
Local Open Scope Z_scope.

#[local] Set Warnings "-register-all".

(** ** Go values the package receives or builds *)

(** The error values this package can build or pass on: [errorString] is what
    [errors.New] and [fmt.Errorf] (without a %w verb) allocate, [NumError] is
    [*strconv.NumError]. *)
Inductive error : Type :=
| errorString (s : string)
| NumError (Func Num : string) (Err : error).

(** A value of type [interface{}], as the provider SDK hands it to a
    validator: a dynamic type together with its value. *)
Inductive any : Type :=
| VNil
| VBool (b : bool)
| VInt (i : Z)
| VString (s : string)
| VList (l : list any)
| VMap (m : list (string * any)).

(** The name of the dynamic type, as the runtime prints it. *)
Definition typeName (v : any) : string :=
  match v with
  | VNil => "nil"
  | VBool _ => "bool"
  | VInt _ => "int"
  | VString _ => "string"
  | VList _ => "[]interface {}"
  | VMap _ => "map[string]interface {}"
  end.

(** What a run-time panic carries; the only one this package can raise is the
    failed single-value type assertion
    [interface conversion: interface {} is <concrete>, not <asserted>]. *)
Inductive panic : Type :=
| TypeAssertionError (concrete asserted : string).

(** A call either returns a value or panics. *)
Inductive outcome (A : Type) : Type :=
| Returns (a : A)
| Panics (p : panic).
Arguments Returns {A} a.
Arguments Panics {A} p.

Definition bind {A B : Type} (m : outcome A) (k : A -> outcome B) : outcome B :=
  match m with
  | Returns a => k a
  | Panics p => Panics p
  end.

Notation "x <- m ;; k" := (bind m (fun x => k))
  (at level 61, m at next level, right associativity).

(** [value := v.(string)]: the single-value assertion panics on a mismatch. *)
Definition assertString (v : any) : outcome string :=
  match v with
  | VString s => Returns s
  | _ => Panics (TypeAssertionError (typeName v) "string")
  end.

(** [value, ok := v.(string)]: the comma-ok assertion yields the zero value
    and [false] on a mismatch. *)
Definition assertStringOk (v : any) : string * bool :=
  match v with
  | VString s => (s, true)
  | _ => ("", false)
  end.

Module errors.
Definition New (text : string) : error := errorString text.
End errors.

Module fmt.
(** [%d] of an int. *)
Definition decimal (n : Z) : string := NilEmpty.string_of_int (Z.to_int n).

(** [fmt.Errorf(format)] for a format without verbs. *)
Definition Errorf (format : string) : error := errorString format.

(** [fmt.Sprintf(pre + "%s" + post, arg)] for a string [arg]. *)
Definition Sprintf_s (pre post arg : string) : string := pre ++ arg ++ post.

(** [fmt.Errorf(pre + "%s" + post, arg)] for a string [arg]. *)
Definition Errorf_s (pre post arg : string) : error :=
  errorString (Sprintf_s pre post arg).

(** [fmt.Errorf(pre + "%d", n)] for an int [n]. *)
Definition Errorf_d (pre : string) (n : Z) : error :=
  errorString (pre ++ decimal n).
End fmt.

(** ** package regexp, as far as the two patterns of this file need it

    The library matches rune by rune over the UTF-8 decoding of the text; the
    model matches byte by byte.  The classes of both patterns hold ASCII
    characters only, and an ASCII byte never occurs inside the encoding of
    another rune, so the two agree on every text. *)

Module regexp.

(** Parsed patterns.  A character class is a list of inclusive ranges, as in
    [regexp/syntax]. *)
Inductive Regexp : Type :=
| EmptyMatch
| CharClass (ranges : list (ascii * ascii))
| Concat (r1 r2 : Regexp)
| Alternate (r1 r2 : Regexp)
| Star (r : Regexp)
| Plus (r : Regexp)
| BeginText
| EndText.

Definition inRange (c : ascii) (r : ascii * ascii) : bool :=
  (nat_of_ascii (fst r) <=? nat_of_ascii c)%nat
  && (nat_of_ascii c <=? nat_of_ascii (snd r))%nat.

Definition inClass (ranges : list (ascii * ascii)) (c : ascii) : bool :=
  existsb (inRange c) ranges.

Section Matcher.
Variable text : list ascii.

(** Zero or more rounds of [step], each of which has to move forward. *)
Fixpoint iterate (step : nat -> list nat) (fuel : nat) (i : nat) : list nat :=
  match fuel with
  | O => [i]
  | S fuel' =>
      i :: flat_map (fun j => if (i <? j)%nat then iterate step fuel' j else [])
                    (step i)
  end.

(** The positions at which a match of [r] that starts at [i] can end. *)
Fixpoint ends (r : Regexp) (i : nat) : list nat :=
  match r with
  | EmptyMatch => [i]
  | CharClass ranges =>
      match nth_error text i with
      | Some c => if inClass ranges c then [S i] else []
      | None => []
      end
  | Concat r1 r2 => flat_map (ends r2) (ends r1 i)
  | Alternate r1 r2 => ends r1 i ++ ends r2 i
  | Star r' => iterate (ends r') (List.length text) i
  | Plus r' => flat_map (iterate (ends r') (List.length text)) (ends r' i)
  | BeginText => if (i =? 0)%nat then [i] else []
  | EndText => if (i =? List.length text)%nat then [i] else []
  end.

Definition matchesAt (r : Regexp) (i : nat) : bool :=
  match ends r i with
  | [] => false
  | _ :: _ => true
  end.
End Matcher.

(** [re.Match(b)]: does [b] contain any match of [re]?  The search is not
    anchored: a match may start at any position. *)
Definition Match (re : Regexp) (b : string) : bool :=
  let text := list_ascii_of_string b in
  existsb (matchesAt text re) (seq 0 (S (List.length text))).

(** The Perl class [\s], which is [[\t\n\f\r ]]. *)
Definition perlSpace : list (ascii * ascii) :=
  [ (ascii_of_nat 9, ascii_of_nat 10);
    (ascii_of_nat 12, ascii_of_nat 13);
    (" "%char, " "%char) ].

(** [[a-zA-Z0-9-_.]]: after the range [0-9] the hyphen is a literal. *)
Definition nameChars : list (ascii * ascii) :=
  [ ("a"%char, "z"%char); ("A"%char, "Z"%char); ("0"%char, "9"%char);
    ("-"%char, "-"%char); ("_"%char, "_"%char); ("."%char, "."%char) ].
End regexp.

(** [regexp.MustCompile(`\s+`)] *)
Definition whiteSpace : regexp.Regexp :=
  regexp.Plus (regexp.CharClass regexp.perlSpace).

(** [regexp.MustCompile(`^[a-zA-Z0-9-_.]+$`)] *)
Definition nameOnly : regexp.Regexp :=
  regexp.Concat regexp.BeginText
    (regexp.Concat (regexp.Plus (regexp.CharClass regexp.nameChars))
                   regexp.EndText).

(** ** The validators *)

(** ValidateName is a function to check if the name is valid *)
Definition ValidateName (v : any) (_ : string) : list string * list error :=
  let errs : list error := [] in
  let warns : list string := [] in
  let '(value, ok) := assertStringOk v in
  if negb ok then
    (warns, (errs ++ [fmt.Errorf "expected name to be string"])%list)
  else if regexp.Match whiteSpace value then
    (warns, (errs ++ [fmt.Errorf_s "name cannot contain whitespace. Got " "" value])%list)
  else
    (warns, errs).

(** ValidateCNIName is a function to check if the cni name is valid *)
Definition ValidateCNIName (v : any) (_ : string) : list string * list error :=
  let errs : list error := [] in
  let warns : list string := [] in
  let '(value, ok) := assertStringOk v in
  if negb ok then
    (warns, (errs ++ [fmt.Errorf "expected CNI to be string"])%list)
  else if regexp.Match whiteSpace value then
    (warns, (errs ++ [fmt.Errorf_s "CNI cannot contain whitespace. Got " "" value])%list)
  else if negb (value =? "flannel")%string && negb (value =? "cilium")%string then
    (warns, (errs ++ [fmt.Errorf "CNI plugin provided isn't valid/supported"])%list)
  else
    (warns, errs).

(** ValidateNameSize is a function to check the size of a name *)
Definition ValidateNameSize (v : any) (_ : string) : list string * list error :=
  let errs : list error := [] in
  let warns : list string := [] in
  let '(value, ok) := assertStringOk v in
  if negb ok then
    (warns, (errs ++ [fmt.Errorf "expected name to be string"])%list)
  else if regexp.Match whiteSpace value then
    (warns, (errs ++ [fmt.Errorf_s "name cannot contain whitespace. Got " "" value])%list)
  else if Z.of_nat (String.length value) >? 63 then
    (warns, (errs ++ [fmt.Errorf_d "the len of the name has to be less than 63. Got "
                                  (Z.of_nat (String.length value))])%list)
  else
    (warns, errs).

Module cty.
(** [cty.Path]; the validator ignores it. *)
Definition Path : Type := list string.
End cty.

Module diag.
Inductive Severity : Type := Error | Warning.

Record Diagnostic : Type := {
  severity : Severity;
  Summary : string;
  Detail : string
}.

Definition Diagnostics : Type := list Diagnostic.
End diag.

Definition wrongValueDiag : diag.Diagnostic :=
  {| diag.severity := diag.Error;
     diag.Summary := "wrong value";
     diag.Detail := "expected name to be string" |}.

Definition whitespaceDiag (value : string) : diag.Diagnostic :=
  {| diag.severity := diag.Error;
     diag.Summary := "cannot contain whitespace";
     diag.Detail := fmt.Sprintf_s "name cannot contain whitespace. Got " "" value |}.

Definition alphanumericDiag (value : string) : diag.Diagnostic :=
  {| diag.severity := diag.Error;
     diag.Summary := "alphanumeric characters";
     diag.Detail :=
       fmt.Sprintf_s
         "name can only contain alphanumeric characters, hyphens, underscores and dots. Got "
         "" value |}.

(** ValidateNameOnlyContainsAlphanumericCharacters validate name only contains
    alphanumeric characters, hyphens, underscores and dots.  The first
    statement is the single-value assertion; the comma-ok assertion comes
    after it. *)
Definition ValidateNameOnlyContainsAlphanumericCharacters
    (v : any) (_ : cty.Path) : outcome diag.Diagnostics :=
  value <- assertString v ;;
  let diags : diag.Diagnostics := [] in
  let '(_, ok) := assertStringOk v in
  let diags := if negb ok then (diags ++ [wrongValueDiag])%list else diags in
  let diags :=
    if regexp.Match whiteSpace value
    then (diags ++ [whitespaceDiag value])%list else diags in
  let diags :=
    if negb (regexp.Match nameOnly value)
    then (diags ++ [alphanumericDiag value])%list else diags in
  Returns diags.

(** ** package strings, as far as this file calls it

    The functions below follow the library on a non-empty pattern, which is
    what this package passes ([":"] and ["G"]).  The library's separate
    branches for an empty pattern, which cut the text into UTF-8 sequences,
    are not part of the model. *)

Module strings.

(** [s[n:]] *)
Fixpoint drop (n : nat) (s : string) : string :=
  match n, s with
  | O, _ => s
  | S n', String _ s' => drop n' s'
  | S _, EmptyString => EmptyString
  end.

(** [s[:n]] *)
Definition take (n : nat) (s : string) : string := substring 0 n s.

Definition HasPrefix (s prefix : string) : bool := String.prefix prefix s.

(** [Index] returns the index of the first instance of [substr] in [s], or
    -1 if [substr] is not present in [s]. *)
Fixpoint Index (s substr : string) : Z :=
  if HasPrefix s substr then 0
  else match s with
       | EmptyString => -1
       | String _ s' =>
           let i := Index s' substr in
           if i <? 0 then -1 else i + 1
       end.

(** The loop of [Count]: the number of non-overlapping instances. *)
Fixpoint countLoop (fuel : nat) (s substr : string) (n : Z) : Z :=
  match fuel with
  | O => n
  | S fuel' =>
      let i := Index s substr in
      if i =? -1 then n
      else countLoop fuel'
             (drop (Z.to_nat i + String.length substr) s) substr (n + 1)
  end.

Definition Count (s substr : string) : Z :=
  countLoop (S (String.length s)) s substr 0.

(** The loop of [Replace]: [n] replacements, from left to right. *)
Fixpoint replaceLoop (n : nat) (s old new : string) : string :=
  match n with
  | O => s
  | S n' =>
      let j := Z.to_nat (Index s old) in
      take j s ++ new ++ replaceLoop n' (drop (j + String.length old) s) old new
  end.

(** [Replace] returns a copy of [s] with the first [n] non-overlapping
    instances of [old] replaced by [new]; if [n < 0] there is no limit. *)
Definition Replace (s old new : string) (n : Z) : string :=
  if (old =? new)%string || (n =? 0) then s
  else
    let m := Count s old in
    if m =? 0 then s
    else
      let n := if (n <? 0) || (m <? n) then m else n in
      replaceLoop (Z.to_nat n) s old new.

(** The loop of [genSplit]: at most [n] cuts, then the rest. *)
Fixpoint splitLoop (n : nat) (s sep : string) : list string :=
  match n with
  | O => [s]
  | S n' =>
      let m := Index s sep in
      if m <? 0 then [s]
      else take (Z.to_nat m) s
             :: splitLoop n' (drop (Z.to_nat m + String.length sep) s) sep
  end.

(** [SplitN] slices [s] into substrings separated by [sep]; [n] bounds the
    number of substrings, the last one being the unsplit remainder. *)
Definition SplitN (s sep : string) (n : Z) : list string :=
  if n =? 0 then []
  else
    let n := if n <? 0 then Count s sep + 1 else n in
    let n := if n >? Z.of_nat (String.length s) + 1
             then Z.of_nat (String.length s) + 1 else n in
    splitLoop (Z.to_nat (n - 1)) s sep.

(** [Contains] reports whether [substr] is within [s]. *)
Definition Contains (s substr : string) : bool := Index s substr >=? 0.

(** [Join] concatenates the elements of [elems], with [sep] between them. *)
Fixpoint Join (elems : list string) (sep : string) : string :=
match elems with
| [] => EmptyString
| [e] => e
| e :: rest => e ++ sep ++ Join rest sep
end.
End strings.

(** ** package sort: [Strings]

    [sort.Strings] sorts a slice in increasing order of Go's [<] on strings,
    which compares byte by byte.  That order is total and two strings it
    ranks equal are the same string, so the sorted slice is determined by the
    elements of the input ([sorted_permutation_unique] below); it is embedded
    as an insertion sort. *)

Module sort.
Fixpoint insert (x : string) (l : list string) : list string :=
match l with
| [] => [x]
| y :: l' => if String.leb x y then x :: l else y :: insert x l'
end.

Fixpoint Strings (x : list string) : list string :=
match x with
| [] => []
| a :: l => insert a (Strings l)
end.
End sort.

(** ** package civogo: what this file reads of its types *)

Module civogo.
(** The field of [KubernetesMarketplaceApplication] this package reads. *)
Record KubernetesMarketplaceApplication : Type := { Name : string }.

(** The field of [KubernetesClusterPoolConfig] this package reads. *)
Record KubernetesClusterPoolConfig : Type := { ID : string }.

(** The API client, seen through the one call made on it: what
    [ListKubernetesMarketplaceApplications()] answers. *)
Record Client : Type := {
  ListKubernetesMarketplaceApplications :
    list KubernetesMarketplaceApplication * option error
}.
End civogo.

(** ** package strconv: [Atoi] *)

Module strconv.

(** The width of [int] on the platform the provider is built for. *)
Inductive Arch : Type := Arch32 | Arch64.

Definition IntSize (a : Arch) : Z :=
  match a with
  | Arch32 => 32
  | Arch64 => 64
  end.

Definition ErrSyntax : error := errors.New "invalid syntax".
Definition ErrRange : error := errors.New "value out of range".

Definition syntaxError (fn str : string) : error := NumError fn str ErrSyntax.
Definition rangeError (fn str : string) : error := NumError fn str ErrRange.

Inductive scan : Type :=
| Value (n : Z)
| BadSyntax
| OutOfRange.

(** The digit loop of [ParseUint] in base 10: a byte that is not a decimal
    digit is a syntax error, a value above [maxVal] a range error, whichever
    comes first from the left. *)
Fixpoint parseDigits (maxVal : Z) (s : string) (n : Z) : scan :=
  match s with
  | EmptyString => Value n
  | String c s' =>
      let d := Z.of_nat (nat_of_ascii c) - 48 in
      if (d <? 0) || (9 <? d) then BadSyntax
      else
        let n1 := n * 10 + d in
        if n1 >? maxVal then OutOfRange else parseDigits maxVal s' n1
  end.

(** [Atoi] is [ParseInt(s, 10, 0)] converted to [int]: an optional sign, at
    least one decimal digit, and a value that fits [int]. *)
Definition Atoi (a : Arch) (s : string) : Z * option error :=
  let s0 := s in
  let cutoff := 2 ^ (IntSize a - 1) in
  match s with
  | EmptyString => (0, Some (syntaxError "Atoi" s0))
  | String c rest =>
      let neg := (c =? "-")%char in
      let s := if neg || (c =? "+")%char then rest else s in
      match s with
      | EmptyString => (0, Some (syntaxError "Atoi" s0))
      | String _ _ =>
          match parseDigits (2 ^ IntSize a - 1) s 0 with
          | BadSyntax => (0, Some (syntaxError "Atoi" s0))
          | OutOfRange =>
              if neg then (- cutoff, Some (rangeError "Atoi" s0))
              else (cutoff - 1, Some (rangeError "Atoi" s0))
          | Value un =>
              if negb neg && (un >=? cutoff)
              then (cutoff - 1, Some (rangeError "Atoi" s0))
              else if neg && (un >? cutoff)
              then (- cutoff, Some (rangeError "Atoi" s0))
              else (if neg then - un else un, None)
          end
      end
  end.
End strconv.

(** ** ResourceCommonParseID and StringToInt *)

(** ResourceCommonParseID is a function to parse the ID of a resource.  The
    [||] of the source is short-circuit, so [parts[0]] and [parts[1]] are read
    only when [len(parts) == 2]. *)
Definition ResourceCommonParseID (id : string) : string * string * option error :=
  let parts := strings.SplitN id ":" 2 in
  match parts with
  | [p0; p1] =>
      if (p0 =? "")%string || (p1 =? "")%string
      then ("", "",
            Some (fmt.Errorf_s "unexpected format of ID ("
                               "), expected attribute1:attribute2" id))
      else (p0, p1, None)
  | _ => ("", "",
          Some (fmt.Errorf_s "unexpected format of ID ("
                             "), expected attribute1:attribute2" id))
  end.

(** StringToInt converts a string to an int *)
Definition StringToInt (a : strconv.Arch) (s : string) : Z * option error :=
  let s := strings.Replace s "G" "" 1 in
  let '(i, err) := strconv.Atoi a s in
  match err with
  | Some e => (0, Some e)
  | None => (i, None)
  end.

(** ** CheckAPPName, GetCommaSeparatedAllowedKeys and InPool *)

(** The [for] loop of CheckAPPName: the first application whose name is
    within [appName] ends it. *)
Fixpoint checkAPPNameLoop (appName : string)
    (allAPP : list civogo.KubernetesMarketplaceApplication) : bool :=
  match allAPP with
  | [] => false
  | v :: rest =>
      if strings.Contains appName (civogo.Name v) then true
      else checkAPPNameLoop appName rest
  end.

(** CheckAPPName is a function to check if the app name is valid *)
Definition CheckAPPName (appName : string) (client : civogo.Client) : bool :=
  let '(allAPP, err) := civogo.ListKubernetesMarketplaceApplications client in
  match err with
  | Some _ => false
  | None => checkAPPNameLoop appName allAPP
  end.

(** GetCommaSeparatedAllowedKeys is used by "tfplugindocs" CLI to generate
    Markdown docs *)
Definition GetCommaSeparatedAllowedKeys (allowedKeys : list string) : string :=
  let res : list string :=
    fold_left (fun res ak => (res ++ [fmt.Sprintf_s "`" "`" ak])%list)
              allowedKeys [] in
  let res := sort.Strings res in
  strings.Join res ", ".

(** InPool is a utility function to check if a node pool is in a kubernetes
    cluster *)
Fixpoint InPool (id : string) (list : list civogo.KubernetesClusterPoolConfig)
  : bool :=
  match list with
  | [] => false
  | b :: rest => if (civogo.ID b =? id)%string then true else InPool id rest
  end.

(** ** RetryUntilSuccessOrTimeout *)

(** What the retry loop does to the outside, in program order. *)
Inductive event : Type :=
| EvNow                            (* start := time.Now() *)
| EvCall (err : option error)      (* err := fn() *)
| EvSince (elapsed : Z)            (* time.Since(start) > timeout *)
| EvLog (err : error)              (* log.Printf("[INFO] Retrying after error: %s", err) *)
| EvSleep (interval : Z).          (* time.Sleep(interval) *)

(** The loop has no bound of its own: a run is cut after [fuel] rounds. *)
Inductive loopResult : Type :=
| Returned (err : option error)
| StillRetrying.

Section Retry.
(** Everything [fn] and the clock may depend on and change. *)
Variable World : Type.
(** The reading of the monotonic clock, in nanoseconds. *)
Variable clock : World -> Z.
(** [time.Sleep] *)
Variable sleep : Z -> World -> World.

(** FunctionWithError is a type that defines a function returning an error. *)
Definition FunctionWithError : Type := World -> option error * World.

Variable fn : FunctionWithError.
Variables interval timeout : Z.

Fixpoint retryLoop (fuel : nat) (start : Z) (w : World)
  : loopResult * list event * World :=
  match fuel with
  | O => (StillRetrying, [], w)
  | S fuel' =>
      let '(err, w1) := fn w in
      match err with
      | Some e =>
          let elapsed := clock w1 - start in
          if elapsed >? timeout then
            (Returned (Some (errors.New "timeout reached")),
             [EvCall (Some e); EvSince elapsed], w1)
          else
            let w2 := sleep interval w1 in
            let '(r, tr, w3) := retryLoop fuel' start w2 in
            (r, EvCall (Some e) :: EvSince elapsed :: EvLog e
                  :: EvSleep interval :: tr, w3)
      | None => (Returned None, [EvCall None], w1)
      end
  end.

(** RetryUntilSuccessOrTimeout calls the provided function repeatedly until
    it returns no error or the timeout has passed. *)
Definition RetryUntilSuccessOrTimeout (fuel : nat) (w : World)
  : loopResult * list event * World :=
  let start := clock w in
  let '(r, tr, w') := retryLoop fuel start w in
  (r, EvNow :: tr, w').
End Retry.

Arguments retryLoop {World} clock sleep fn interval timeout fuel start w.
Arguments RetryUntilSuccessOrTimeout {World} clock sleep fn interval timeout fuel w.

Definition resultOf {W : Type} (x : loopResult * list event * W) : loopResult :=
  fst (fst x).
Definition traceOf {W : Type} (x : loopResult * list event * W) : list event :=
  snd (fst x).
Definition worldOf {W : Type} (x : loopResult * list event * W) : W := snd x.

(** ** Vocabulary of the properties *)

(** The bytes of a string. *)
Definition bytes (s : string) : list ascii := list_ascii_of_string s.

Definition isString (v : any) : bool :=
  match v with
  | VString _ => true
  | _ => false
  end.

(** The whitespace characters of the validators' messages: tab, line feed,
    form feed, carriage return and space. *)
Definition isWhitespace (c : ascii) : bool :=
  match nat_of_ascii c with
  | 9%nat | 10%nat | 12%nat | 13%nat | 32%nat => true
  | _ => false
  end.

Definition containsWhitespace (s : string) : bool :=
  existsb isWhitespace (bytes s).

(** Letters, digits, hyphen, underscore and dot. *)
Definition isNameChar (c : ascii) : bool :=
  let n := nat_of_ascii c in
  ((97 <=? n) && (n <=? 122) || (65 <=? n) && (n <=? 90)
   || (48 <=? n) && (n <=? 57)
   || (n =? 45) || (n =? 95) || (n =? 46))%nat.

(** A string as the pattern [^[a-zA-Z0-9-_.]+$] describes it: one or more
    characters, all of them from the set. *)
Definition onlyNameChars (s : string) : bool :=
  match bytes s with
  | [] => false
  | cs => forallb isNameChar cs
  end.

(** The string has a character outside the set. *)
Definition hasOtherChar (s : string) : bool :=
  existsb (fun c => negb (isNameChar c)) (bytes s).

(** All positions of [text] from [i] up to [j] hold a character of the
    class. *)
Definition classRun (text : list ascii) (cls : list (ascii * ascii))
    (i j : nat) : Prop :=
  forall k, (i <= k < j)%nat ->
    exists c, nth_error text k = Some c /\ regexp.inClass cls c = true.

(** The string with its first occurrence of [c], if any, deleted. *)
Fixpoint deleteFirst (c : ascii) (s : string) : string :=
  match s with
  | EmptyString => EmptyString
  | String a s' => if (a =? c)%char then s' else String a (deleteFirst c s')
  end.

(** [id] is [first], a colon and [second], where the colon is the first one
    of [id] and neither part is empty. *)
Definition splitsAtFirstColon (id first second : string) : Prop :=
  first <> "" /\ second <> "" /\ ~ In ":"%char (bytes first)
  /\ id = first ++ ":" ++ second.

(** What ResourceCommonParseID returns when it rejects [id]. *)
Definition parseIDError (id : string) : string * string * option error :=
  ("", "",
   Some (fmt.Errorf_s "unexpected format of ID ("
                      "), expected attribute1:attribute2" id)).

(** Every deadline comparison of a run comes right after a failed call. *)
Definition deadlineOnlyAfterFailedCall (tr : list event) : Prop :=
  forall pre elapsed post,
    tr = (pre ++ EvSince elapsed :: post)%list ->
    exists pre' e, pre = (pre' ++ [EvCall (Some e)])%list.

(** A successful call is the last thing a run does, and the first success. *)
Definition stopsAtFirstSuccess (tr : list event) : Prop :=
  forall pre post,
    tr = (pre ++ EvCall None :: post)%list ->
    post = [] /\ ~ In (EvCall None) pre.

(** The shape of a run of the loop: rounds of a failed call, a deadline
    comparison, a log line and a sleep, closed by a success, by a timeout, or
    cut where the fuel ends. *)
Inductive loopRun : loopResult -> list event -> Prop :=
| run_cut : loopRun StillRetrying []
| run_success : loopRun (Returned None) [EvCall None]
| run_timeout e elapsed :
    loopRun (Returned (Some (errors.New "timeout reached")))
            [EvCall (Some e); EvSince elapsed]
| run_retry e elapsed interval r tr :
    loopRun r tr ->
    loopRun r (EvCall (Some e) :: EvSince elapsed :: EvLog e
                 :: EvSleep interval :: tr).

(** Two operations that fail on the same worlds and leave the same world
    behind, whatever errors they report. *)
Definition sameButForErrors {World : Type} (fn fn' : FunctionWithError World)
  : Prop :=
  forall w,
    snd (fn w) = snd (fn' w) /\ (fst (fn w) = None <-> fst (fn' w) = None).

(** *** A world to run the loop in *)

(** The clock and the number of calls [fn] has received. *)
Record testWorld : Type := { twClock : Z; twCalls : nat }.

Definition testSleep (d : Z) (w : testWorld) : testWorld :=
  {| twClock := twClock w + Z.max d 0; twCalls := twCalls w |}.

(** An operation that takes [cost] nanoseconds and fails on its first [n]
    calls. *)
Definition failsFirst (n : nat) (cost : Z) : FunctionWithError testWorld :=
  fun w =>
    (if (twCalls w <? n)%nat then Some (errors.New "not ready") else None,
     {| twClock := twClock w + cost; twCalls := S (twCalls w) |}).

Definition testStart : testWorld := {| twClock := 0; twCalls := 0 |}.

(** The same operation, reporting [e] when it fails. *)
Definition failsFirstWith (e : error) (n : nat) (cost : Z)
  : FunctionWithError testWorld :=
  fun w =>
    (if (twCalls w <? n)%nat then Some e else None,
     {| twClock := twClock w + cost; twCalls := S (twCalls w) |}).

Definition millisecond : Z := 1000000.

(** Names of 63 and of 64 bytes. *)
Definition name63 : string :=
  "abcdefghi-abcdefghi-abcdefghi-abcdefghi-abcdefghi-abcdefghi-xyz".
Definition name64 : string := String "a" name63.

(** *** Vocabulary of the further properties *)

(** [sub] occurs within [s]. *)
Definition isSubstring (sub s : string) : Prop :=
  exists pre post, s = pre ++ sub ++ post.

(** How many times the byte [c] occurs in [s]. *)
Definition occurrences (c : ascii) (s : string) : nat :=
  count_occ ascii_dec (bytes s) c.

(** The least and the greatest value of [int]. *)
Definition minInt (a : strconv.Arch) : Z := - 2 ^ (strconv.IntSize a - 1).
Definition maxInt (a : strconv.Arch) : Z := 2 ^ (strconv.IntSize a - 1) - 1.

Definition isDigit (c : ascii) : bool :=
  ((48 <=? nat_of_ascii c) && (nat_of_ascii c <=? 57))%nat.

(** The number a sequence of decimal digits writes, read from the left on
    top of [acc]. *)
Fixpoint uintValue (d : Decimal.uint) (acc : Z) : Z :=
  match d with
  | Decimal.Nil => acc
  | Decimal.D0 d => uintValue d (acc * 10 + 0)
  | Decimal.D1 d => uintValue d (acc * 10 + 1)
  | Decimal.D2 d => uintValue d (acc * 10 + 2)
  | Decimal.D3 d => uintValue d (acc * 10 + 3)
  | Decimal.D4 d => uintValue d (acc * 10 + 4)
  | Decimal.D5 d => uintValue d (acc * 10 + 5)
  | Decimal.D6 d => uintValue d (acc * 10 + 6)
  | Decimal.D7 d => uintValue d (acc * 10 + 7)
  | Decimal.D8 d => uintValue d (acc * 10 + 8)
  | Decimal.D9 d => uintValue d (acc * 10 + 9)
  end.

(** A key between back quotes, as the documentation shows it. *)
Definition quoted (key : string) : string := "`" ++ key ++ "`".

(** Increasing order of strings, each element at most every later one. *)
Definition stringsSorted (l : list string) : Prop :=
  StronglySorted (fun x y => String.leb x y = true) l.

(** A client whose API call answers [apps], and one whose call fails. *)
Definition clientAnswering (apps : list string) : civogo.Client :=
  {| civogo.ListKubernetesMarketplaceApplications :=
       (map civogo.Build_KubernetesMarketplaceApplication apps, None) |}.

Definition clientFailing (apps : list civogo.KubernetesMarketplaceApplication)
    (e : error) : civogo.Client :=
  {| civogo.ListKubernetesMarketplaceApplications := (apps, Some e) |}.

Definition isCall (ev : event) : bool :=
  match ev with EvCall _ => true | _ => false end.

Definition isSleep (ev : event) : bool :=
  match ev with EvSleep _ => true | _ => false end.

(** The calls of [fn] and the sleeps of a run. *)
Definition countCalls (tr : list event) : nat :=
  List.length (filter isCall tr).
Definition countSleeps (tr : list event) : nat :=
  List.length (filter isSleep tr).

(** The world in which round [k] of the loop starts, as long as the calls of
    the rounds before have failed within the deadline: each round calls [fn]
    and sleeps for [interval]. *)
Fixpoint roundWorld {World : Type} (sleep : Z -> World -> World)
    (fn : FunctionWithError World) (interval : Z) (k : nat) (w : World)
  : World :=
  match k with
  | O => w
  | S k' => roundWorld sleep fn interval k' (sleep interval (snd (fn w)))
  end.

(** The calls of the first [n] rounds: what [fn] returns on the world of each
    round. *)
Definition callsOfRounds {World : Type} (sleep : Z -> World -> World)
    (fn : FunctionWithError World) (interval : Z) (n : nat) (w : World)
  : list event :=
  map (fun k => EvCall (fst (fn (roundWorld sleep fn interval k w))))
      (seq 0 n).

(** The call of round [k] is the first one to return nil: the calls of the
    rounds before returned an error no later than [timeout] after [start]. *)
Definition firstSuccessAt {World : Type} (clock : World -> Z)
    (sleep : Z -> World -> World) (fn : FunctionWithError World)
    (interval timeout start : Z) (k : nat) (w : World) : Prop :=
  fst (fn (roundWorld sleep fn interval k w)) = None
  /\ forall j, (j < k)%nat ->
       fst (fn (roundWorld sleep fn interval j w)) <> None
       /\ clock (snd (fn (roundWorld sleep fn interval j w))) - start
          <= timeout.

(** [unicode.IsSpace] on the ASCII range: the five characters of [\s] and the
    vertical tab. *)
Definition unicodeIsSpace (c : ascii) : bool :=
  match nat_of_ascii c with
  | 9%nat | 10%nat | 11%nat | 12%nat | 13%nat | 32%nat => true
  | _ => false
  end.

Definition containsSpaceChar (s : string) : bool :=
  existsb unicodeIsSpace (bytes s).

(** A name with a vertical tab between two letters. *)
Definition verticalTab : ascii := ascii_of_nat 11.
Definition nameWithVerticalTab : string :=
  String "a" (String verticalTab "b").

(** * Properties *)

(** ** Character classes *)

Lemma perlSpace_isWhitespace (c : ascii) :
  regexp.inClass regexp.perlSpace c = isWhitespace c.
Proof.
  destruct c as [[] [] [] [] [] [] [] []]; reflexivity.
Qed.

Lemma nameChars_isNameChar (c : ascii) :
  regexp.inClass regexp.nameChars c = isNameChar c.
Proof.
  destruct c as [[] [] [] [] [] [] [] []]; reflexivity.
Qed.

Lemma nameChar_not_whitespace (c : ascii) :
  isNameChar c = true -> isWhitespace c = false.
Proof.
  destruct c as [[] [] [] [] [] [] [] []]; vm_compute; congruence.
Qed.

(** The vertical tab and the no-break space byte are outside [\s]. *)
Example vertical_tab_is_not_perlSpace :
  regexp.inClass regexp.perlSpace (ascii_of_nat 11) = false
  /\ regexp.inClass regexp.perlSpace (ascii_of_nat 160) = false.
Proof. split; reflexivity. Qed.

(** ** The matcher on the two patterns *)

Section MatcherFacts.
Variable text : list ascii.
Variable cls : list (ascii * ascii).

Let step := regexp.ends text (regexp.CharClass cls).

Let classRun := classRun text cls.

Lemma step_spec (i j : nat) :
  In j (step i) <->
  j = S i /\ exists c, nth_error text i = Some c /\ regexp.inClass cls c = true.
Proof.
  unfold step; simpl.
  destruct (nth_error text i) as [c|] eqn:E.
  - destruct (regexp.inClass cls c) eqn:Ec; simpl.
    + split.
      * intros [<- | []]. split; [reflexivity | eauto].
      * intros [-> _]. now left.
    + split; [intros [] |].
      intros [_ (c' & Hc' & Hin)]. congruence.
  - simpl. split; [intros [] |].
    intros [_ (c' & Hc' & _)]. discriminate.
Qed.

Lemma classRun_bound (i j : nat) :
  (i < j)%nat -> classRun i j -> (j <= List.length text)%nat.
Proof.
  intros Hlt Hrun.
  destruct (Hrun (j - 1)%nat ltac:(lia)) as (c & Hc & _).
  assert (nth_error text (j - 1) <> None) as Hn by congruence.
  apply nth_error_Some in Hn. lia.
Qed.

Lemma iterate_sound (fuel : nat) :
  forall i j, In j (regexp.iterate step fuel i) -> (i <= j)%nat /\ classRun i j.
Proof.
  induction fuel as [|fuel IH]; intros i j; simpl.
  - intros [<- | []]. split; [lia | intros k Hk; lia].
  - intros [<- | Hin].
    + split; [lia | intros k Hk; lia].
    + apply in_flat_map in Hin. destruct Hin as (m & Hm & Hj).
      apply step_spec in Hm. destruct Hm as [-> Hc].
      replace (i <? S i)%nat with true in Hj
        by (symmetry; apply Nat.ltb_lt; lia).
      apply IH in Hj. destruct Hj as [Hle Hrun].
      split; [lia |].
      intros k Hk. destruct (Nat.eq_dec k i) as [-> | Hne]; [exact Hc |].
      apply Hrun. lia.
Qed.

Lemma iterate_complete (fuel : nat) :
  forall i j, (i <= j)%nat -> (j - i <= fuel)%nat -> classRun i j ->
              In j (regexp.iterate step fuel i).
Proof.
  induction fuel as [|fuel IH]; intros i j Hle Hfuel Hrun; simpl.
  - left. lia.
  - destruct (Nat.eq_dec i j) as [-> | Hne]; [now left | right].
    apply in_flat_map. exists (S i). split.
    + apply step_spec. split; [reflexivity |]. apply Hrun. lia.
    + replace (i <? S i)%nat with true by (symmetry; apply Nat.ltb_lt; lia).
      apply IH; [lia | lia |].
      intros k Hk. apply Hrun. lia.
Qed.

(** [[cls]+] from [i]: the non-empty runs of the class that start at [i]. *)
Lemma ends_plus_class (i j : nat) :
  In j (regexp.ends text (regexp.Plus (regexp.CharClass cls)) i) <->
  (i < j)%nat /\ classRun i j.
Proof.
  change (regexp.ends text (regexp.Plus (regexp.CharClass cls)) i)
    with (flat_map (regexp.iterate step (List.length text)) (step i)).
  rewrite in_flat_map. split.
  - intros (m & Hm & Hj). apply step_spec in Hm. destruct Hm as [-> Hc].
    apply iterate_sound in Hj. destruct Hj as [Hle Hrun].
    split; [lia |].
    intros k Hk. destruct (Nat.eq_dec k i) as [-> | Hne]; [exact Hc |].
    apply Hrun. lia.
  - intros [Hlt Hrun]. exists (S i). split.
    + apply step_spec. split; [reflexivity |]. apply Hrun. lia.
    + pose proof (classRun_bound i j Hlt Hrun).
      apply iterate_complete; [lia | lia |].
      intros k Hk. apply Hrun. lia.
Qed.
End MatcherFacts.

Lemma ends_Concat (text : list ascii) (r1 r2 : regexp.Regexp) (i : nat) :
  regexp.ends text (regexp.Concat r1 r2) i
  = flat_map (regexp.ends text r2) (regexp.ends text r1 i).
Proof. reflexivity. Qed.

Lemma in_ends_BeginText (text : list ascii) (i j : nat) :
  In j (regexp.ends text regexp.BeginText i) <-> i = 0%nat /\ j = 0%nat.
Proof.
  simpl. destruct (Nat.eqb_spec i 0) as [-> | Hne]; simpl.
  - split; [intros [<- | []]; auto | intros [_ ->]; now left].
  - split; [intros [] | intros [-> _]; now elim Hne].
Qed.

Lemma in_ends_EndText (text : list ascii) (i j : nat) :
  In j (regexp.ends text regexp.EndText i) <-> i = List.length text /\ j = i.
Proof.
  simpl. destruct (Nat.eqb_spec i (List.length text)) as [-> | Hne]; simpl.
  - split; [intros [<- | []]; auto | intros [_ ->]; now left].
  - split; [intros [] | intros [-> _]; now elim Hne].
Qed.

Lemma matchesAt_true (text : list ascii) (r : regexp.Regexp) (i : nat) :
  regexp.matchesAt text r i = true <-> exists j, In j (regexp.ends text r i).
Proof.
  unfold regexp.matchesAt.
  destruct (regexp.ends text r i) as [|j l].
  - split; [discriminate | intros (j & [])].
  - split; [intros _; exists j; now left | reflexivity].
Qed.

Lemma Match_true (re : regexp.Regexp) (b : string) :
  regexp.Match re b = true <->
  exists i j, (i <= List.length (bytes b))%nat /\ In j (regexp.ends (bytes b) re i).
Proof.
  unfold regexp.Match. fold (bytes b).
  rewrite existsb_exists. split.
  - intros (i & Hi & Hm). apply in_seq in Hi. apply matchesAt_true in Hm.
    destruct Hm as (j & Hj). exists i, j. split; [lia | exact Hj].
  - intros (i & j & Hi & Hj). exists i. split.
    + apply in_seq. lia.
    + apply matchesAt_true. now exists j.
Qed.

Lemma classRun_all (text : list ascii) (cls : list (ascii * ascii)) :
  classRun text cls 0 (List.length text) <->
  forall c, In c text -> regexp.inClass cls c = true.
Proof.
  split.
  - intros Hrun c Hin. apply In_nth_error in Hin. destruct Hin as (k & Hk).
    assert (k < List.length text)%nat as Hlt
        by (apply nth_error_Some; congruence).
    destruct (Hrun k ltac:(lia)) as (c' & Hc' & Hcls). congruence.
  - intros Hall k Hk.
    destruct (nth_error text k) as [c|] eqn:E.
    + exists c. split; [reflexivity |]. apply Hall. eapply nth_error_In; eauto.
    + apply nth_error_None in E. lia.
Qed.

(** The pattern [\s+] finds a match exactly in the strings that hold a
    whitespace character. *)
Lemma Match_whiteSpace (s : string) :
  regexp.Match whiteSpace s = containsWhitespace s.
Proof.
  apply eq_iff_eq_true. rewrite Match_true.
  unfold containsWhitespace, whiteSpace. rewrite existsb_exists. split.
  - intros (i & j & _ & Hj). apply ends_plus_class in Hj.
    destruct Hj as [Hlt Hrun].
    destruct (Hrun i ltac:(lia)) as (c & Hc & Hcls).
    exists c. split; [eapply nth_error_In; eauto |].
    now rewrite <- perlSpace_isWhitespace.
  - intros (c & Hin & Hc). apply In_nth_error in Hin. destruct Hin as (i & Hi).
    assert (i < List.length (bytes s))%nat as Hlt
        by (apply nth_error_Some; congruence).
    exists i, (S i). split; [lia |].
    apply ends_plus_class. split; [lia |].
    intros k Hk. assert (k = i) as -> by lia.
    exists c. split; [exact Hi |]. now rewrite perlSpace_isWhitespace.
Qed.

Lemma onlyNameChars_true (s : string) :
  onlyNameChars s = true <->
  bytes s <> [] /\ forall c, In c (bytes s) -> isNameChar c = true.
Proof.
  unfold onlyNameChars. destruct (bytes s) as [|c cs] eqn:E.
  - split; [discriminate | intros [H _]; now elim H].
  - rewrite forallb_forall. split.
    + intros H. split; [discriminate | exact H].
    + intros [_ H]. exact H.
Qed.

(** The pattern [^[a-zA-Z0-9-_.]+$] matches exactly the non-empty strings
    made of the characters of the set. *)
Lemma Match_nameOnly (s : string) :
  regexp.Match nameOnly s = onlyNameChars s.
Proof.
  apply eq_iff_eq_true. rewrite Match_true, onlyNameChars_true.
  unfold nameOnly. set (text := bytes s). split.
  - intros (i & j & _ & Hj). rewrite ends_Concat in Hj.
    apply in_flat_map in Hj. destruct Hj as (i' & Hbegin & Hj).
    apply in_ends_BeginText in Hbegin. destruct Hbegin as [-> ->].
    rewrite ends_Concat in Hj.
    apply in_flat_map in Hj. destruct Hj as (m & Hm & Hend).
    apply ends_plus_class in Hm. destruct Hm as [Hlt Hrun].
    apply in_ends_EndText in Hend. destruct Hend as [-> _]. split.
    + intros Hnil. rewrite Hnil in Hlt. simpl in Hlt. lia.
    + intros c Hin. rewrite <- nameChars_isNameChar.
      revert c Hin. apply classRun_all. exact Hrun.
  - intros [Hne Hall]. exists 0%nat, (List.length text). split; [lia |].
    rewrite ends_Concat. apply in_flat_map. exists 0%nat. split.
    { apply in_ends_BeginText. auto. }
    rewrite ends_Concat. apply in_flat_map. exists (List.length text). split.
    + apply ends_plus_class. split.
      * destruct text; [now elim Hne | simpl; lia].
      * apply classRun_all. intros c Hin.
        rewrite nameChars_isNameChar. now apply Hall.
    + apply in_ends_EndText. auto.
Qed.

Lemma onlyNameChars_no_whitespace (s : string) :
  onlyNameChars s = true -> containsWhitespace s = false.
Proof.
  intros H. apply onlyNameChars_true in H. destruct H as [_ Hall].
  unfold containsWhitespace.
  destruct (existsb isWhitespace (bytes s)) eqn:E; [| reflexivity].
  apply existsb_exists in E. destruct E as (c & Hin & Hc).
  apply Hall in Hin. apply nameChar_not_whitespace in Hin. congruence.
Qed.

Lemma hasOtherChar_not_onlyNameChars (s : string) :
  hasOtherChar s = true -> onlyNameChars s = false.
Proof.
  intros H. unfold hasOtherChar in H. apply existsb_exists in H.
  destruct H as (c & Hin & Hc).
  destruct (onlyNameChars s) eqn:E; [| reflexivity].
  apply onlyNameChars_true in E. destruct E as [_ Hall].
  apply Hall in Hin. rewrite Hin in Hc. discriminate.
Qed.

(** ** The validators *)

Lemma legacy_validators_reject_non_string (v : any) (k : string) :
  isString v = false ->
  ValidateName v k = ([], [fmt.Errorf "expected name to be string"])
  /\ ValidateCNIName v k = ([], [fmt.Errorf "expected CNI to be string"])
  /\ ValidateNameSize v k = ([], [fmt.Errorf "expected name to be string"]).
Proof.
  destruct v; simpl; try discriminate; intros _; repeat split; reflexivity.
Qed.

(** On a value that is not a string the diagnostics validator does not reach
    its own [ok] test: the assertion in its first statement panics. *)
Lemma alphanumeric_validator_panics_on_non_string (v : any) (p : cty.Path) :
  isString v = false ->
  ValidateNameOnlyContainsAlphanumericCharacters v p
  = Panics (TypeAssertionError (typeName v) "string").
Proof.
  destruct v; simpl; try discriminate; intros _; reflexivity.
Qed.

Lemma append_empty_r (a : string) : a ++ "" = a.
Proof.
  induction a as [|x a IH]; simpl; [reflexivity | now rewrite IH].
Qed.

Lemma alphanumeric_validator_on_string (s : string) (p : cty.Path) :
  ValidateNameOnlyContainsAlphanumericCharacters (VString s) p
  = Returns ((if containsWhitespace s then [whitespaceDiag s] else [])
             ++ (if onlyNameChars s then [] else [alphanumericDiag s]))%list.
Proof.
  unfold ValidateNameOnlyContainsAlphanumericCharacters. simpl.
  rewrite Match_whiteSpace, Match_nameOnly.
  destruct (containsWhitespace s), (onlyNameChars s); reflexivity.
Qed.

(** C1, at the input [42]: the three validators that return warnings and
    errors answer an integer with exactly one type-mismatch error and no
    warning, while ValidateNameOnlyContainsAlphanumericCharacters panics on it
    instead of returning its "wrong value" diagnostic. *)
Theorem C1_alphanumeric_validator_panics_on_int :
  ValidateName (VInt 42) "name" = ([], [fmt.Errorf "expected name to be string"])
  /\ ValidateCNIName (VInt 42) "cni" = ([], [fmt.Errorf "expected CNI to be string"])
  /\ ValidateNameSize (VInt 42) "name" = ([], [fmt.Errorf "expected name to be string"])
  /\ ValidateNameOnlyContainsAlphanumericCharacters (VInt 42) []
     = Panics (TypeAssertionError "int" "string").
Proof.
  repeat split; reflexivity.
Qed.




(** C6: on a string without whitespace ValidateNameSize returns the length
    error when the string is longer than 63 bytes, and no error when it is
    exactly 63 bytes long. *)
Theorem C6_name_size_boundary (s k : string) :
  containsWhitespace s = false ->
  (63 < Z.of_nat (String.length s) ->
   ValidateNameSize (VString s) k
   = ([], [fmt.Errorf_d "the len of the name has to be less than 63. Got "
                        (Z.of_nat (String.length s))]))
  /\ (Z.of_nat (String.length s) = 63 ->
      ValidateNameSize (VString s) k = ([], [])).
Proof.
  intros Hws. unfold ValidateNameSize. simpl.
  rewrite Match_whiteSpace, Hws. split; intros Hlen.
  - replace (Z.of_nat (String.length s) >? 63) with true
      by (symmetry; apply Z.gtb_lt; exact Hlen).
    reflexivity.
  - rewrite Hlen. reflexivity.
Qed.

Lemma C6_name_size_boundary_witness :
  (containsWhitespace name64 = false
   /\ 63 < Z.of_nat (String.length name64)
   /\ ValidateNameSize (VString name64) "name"
      = ([], [errorString "the len of the name has to be less than 63. Got 64"]))
  /\ (containsWhitespace name63 = false
      /\ Z.of_nat (String.length name63) = 63
      /\ ValidateNameSize (VString name63) "name" = ([], [])).
Proof.
  split.
  - split; [reflexivity | split; [reflexivity |]].
    apply (proj1 (C6_name_size_boundary name64 "name" eq_refl)). reflexivity.
  - split; [reflexivity | split; [reflexivity |]].
    apply (proj2 (C6_name_size_boundary name63 "name" eq_refl)). reflexivity.
Defined.

(** C7, as amended: ValidateNameOnlyContainsAlphanumericCharacters returns
    no diagnostic for a string matching [^[a-zA-Z0-9-_.]+$]; the whitespace
    and then the character-set diagnostic for a string that has a character
    of the class [\s] (tab, line feed, form feed, carriage return, space) and
    a character outside the set; only the character-set diagnostic for a
    string without a character of [\s] that has a character outside the
    set. *)
Theorem C7_alphanumeric_validator_diagnostics (s : string) (p : cty.Path) :
  (onlyNameChars s = true ->
   ValidateNameOnlyContainsAlphanumericCharacters (VString s) p = Returns [])
  /\ (containsWhitespace s = true -> hasOtherChar s = true ->
      ValidateNameOnlyContainsAlphanumericCharacters (VString s) p
      = Returns
          [{| diag.severity := diag.Error;
              diag.Summary := "cannot contain whitespace";
              diag.Detail := "name cannot contain whitespace. Got " ++ s |};
           {| diag.severity := diag.Error;
              diag.Summary := "alphanumeric characters";
              diag.Detail :=
                "name can only contain alphanumeric characters, hyphens, underscores and dots. Got "
                ++ s |}])
  /\ (containsWhitespace s = false -> hasOtherChar s = true ->
      ValidateNameOnlyContainsAlphanumericCharacters (VString s) p
      = Returns
          [{| diag.severity := diag.Error;
              diag.Summary := "alphanumeric characters";
              diag.Detail :=
                "name can only contain alphanumeric characters, hyphens, underscores and dots. Got "
                ++ s |}]).
Proof.
  rewrite alphanumeric_validator_on_string.
  unfold whitespaceDiag, alphanumericDiag, fmt.Sprintf_s.
  rewrite append_empty_r. repeat split.
  - intros Hname.
    rewrite (onlyNameChars_no_whitespace s Hname), Hname. reflexivity.
  - intros Hws Hother.
    rewrite Hws, (hasOtherChar_not_onlyNameChars s Hother). reflexivity.
  - intros Hws Hother.
    rewrite Hws, (hasOtherChar_not_onlyNameChars s Hother). reflexivity.
Qed.

Lemma C7_alphanumeric_validator_diagnostics_witness :
  (onlyNameChars "good-name_1.0" = true
   /\ ValidateNameOnlyContainsAlphanumericCharacters (VString "good-name_1.0") []
      = Returns [])
  /\ (containsWhitespace "bad name!" = true /\ hasOtherChar "bad name!" = true
      /\ ValidateNameOnlyContainsAlphanumericCharacters (VString "bad name!") []
         = Returns
             [{| diag.severity := diag.Error;
                 diag.Summary := "cannot contain whitespace";
                 diag.Detail := "name cannot contain whitespace. Got bad name!" |};
              {| diag.severity := diag.Error;
                 diag.Summary := "alphanumeric characters";
                 diag.Detail :=
                   "name can only contain alphanumeric characters, hyphens, underscores and dots. Got bad name!" |}])
  /\ (containsWhitespace "bad!name" = false /\ hasOtherChar "bad!name" = true
      /\ ValidateNameOnlyContainsAlphanumericCharacters (VString "bad!name") []
         = Returns
             [{| diag.severity := diag.Error;
                 diag.Summary := "alphanumeric characters";
                 diag.Detail :=
                   "name can only contain alphanumeric characters, hyphens, underscores and dots. Got bad!name" |}]).
Proof.
  split; [| split].
  - split; [reflexivity |].
    apply (proj1 (C7_alphanumeric_validator_diagnostics "good-name_1.0" [])).
    reflexivity.
  - split; [reflexivity | split; [reflexivity |]].
    apply (proj1 (proj2 (C7_alphanumeric_validator_diagnostics "bad name!" [])));
      reflexivity.
  - split; [reflexivity | split; [reflexivity |]].
    apply (proj2 (proj2 (C7_alphanumeric_validator_diagnostics "bad!name" [])));
      reflexivity.
Defined.

(** C7 as it is worded fails on the vertical tab: the string holds a
    whitespace character and a character outside the set, and the validator
    returns the character-set diagnostic alone, not the two diagnostics. *)
Lemma C7_vertical_tab_gets_one_diagnostic :
  containsSpaceChar nameWithVerticalTab = true
  /\ hasOtherChar nameWithVerticalTab = true
  /\ ValidateNameOnlyContainsAlphanumericCharacters
       (VString nameWithVerticalTab) []
     = Returns
         [{| diag.severity := diag.Error;
             diag.Summary := "alphanumeric characters";
             diag.Detail :=
               "name can only contain alphanumeric characters, hyphens, underscores and dots. Got "
               ++ nameWithVerticalTab |}]
  /\ ValidateNameOnlyContainsAlphanumericCharacters
       (VString nameWithVerticalTab) []
     <> Returns
          [{| diag.severity := diag.Error;
              diag.Summary := "cannot contain whitespace";
              diag.Detail :=
                "name cannot contain whitespace. Got " ++ nameWithVerticalTab |};
           {| diag.severity := diag.Error;
              diag.Summary := "alphanumeric characters";
              diag.Detail :=
                "name can only contain alphanumeric characters, hyphens, underscores and dots. Got "
                ++ nameWithVerticalTab |}].
Proof.
  repeat split; try reflexivity. discriminate.
Qed.

(** ** package strings on a one-byte pattern *)

Section OneBytePattern.
Variable c : ascii.

Let pat : string := String c EmptyString.

Lemma Index_empty : strings.Index "" pat = -1.
Proof. reflexivity. Qed.

Lemma Index_cons (a : ascii) (s : string) :
  strings.Index (String a s) pat
  = if (a =? c)%char then 0
    else if strings.Index s pat <? 0 then -1 else strings.Index s pat + 1.
Proof.
  unfold pat. simpl. unfold strings.HasPrefix. simpl.
  destruct (ascii_dec c a) as [-> | Hne].
  - rewrite Ascii.eqb_refl. destruct s; reflexivity.
  - destruct (Ascii.eqb_spec a c) as [-> | _]; [now elim Hne | reflexivity].
Qed.

Lemma Index_lower_bound (s : string) : -1 <= strings.Index s pat.
Proof.
  induction s as [|a s IH].
  - rewrite Index_empty. lia.
  - rewrite Index_cons. destruct (a =? c)%char; [lia |].
    destruct (Z.ltb_spec (strings.Index s pat) 0); lia.
Qed.

Lemma take_cons (n : nat) (a : ascii) (s : string) :
  strings.take (S n) (String a s) = String a (strings.take n s).
Proof. reflexivity. Qed.

Lemma take_zero (s : string) : strings.take 0 s = "".
Proof. destruct s; reflexivity. Qed.

(** Where [Index] finds nothing, the byte does not occur. *)
Lemma Index_absent (s : string) :
  strings.Index s pat = -1 <-> ~ In c (bytes s).
Proof.
  induction s as [|a s IH].
  - rewrite Index_empty. simpl. tauto.
  - rewrite Index_cons. simpl.
    pose proof (Index_lower_bound s) as Hlb.
    destruct (Ascii.eqb_spec a c) as [-> | Hne].
    + split; [discriminate | intros H; elim H; now left].
    + destruct (Z.ltb_spec (strings.Index s pat) 0) as [Hneg | Hpos].
      * assert (strings.Index s pat = -1) as Hm by lia.
        apply IH in Hm. split; [| reflexivity].
        intros _ [Heq | Hin]; [now elim Hne | now elim Hm].
      * split; [lia |].
        intros Hnot. assert (~ In c (bytes s)) as Hs by tauto.
        apply IH in Hs. lia.
Qed.

(** Where [Index] finds the byte, it is its first occurrence. *)
Lemma Index_found (s : string) :
  0 <= strings.Index s pat ->
  let j := Z.to_nat (strings.Index s pat) in
  s = strings.take j s ++ String c (strings.drop (j + 1) s)
  /\ ~ In c (bytes (strings.take j s)).
Proof.
  induction s as [|a s IH].
  - rewrite Index_empty. lia.
  - rewrite Index_cons.
    destruct (Ascii.eqb_spec a c) as [-> | Hne].
    + intros _. simpl. split; [reflexivity | tauto].
    + destruct (Z.ltb_spec (strings.Index s pat) 0) as [Hneg | Hpos];
        [lia |].
      intros _. specialize (IH Hpos).
      replace (Z.to_nat (strings.Index s pat + 1))
        with (S (Z.to_nat (strings.Index s pat))) by lia.
      cbv zeta in IH |- *. destruct IH as [Heq Hnot].
      rewrite take_cons. simpl strings.drop. split.
      * simpl. f_equal. exact Heq.
      * simpl. intros [Heq' | Hin]; [now elim Hne | now elim Hnot].
Qed.

(** The first occurrence, seen from the two parts around it. *)
Lemma Index_first_occurrence (a b : string) :
  ~ In c (bytes a) ->
  strings.Index (a ++ String c b) pat = Z.of_nat (String.length a)
  /\ strings.take (String.length a) (a ++ String c b) = a
  /\ strings.drop (String.length a + 1) (a ++ String c b) = b.
Proof.
  induction a as [|x a IH]; intros Hnot.
  - simpl append. rewrite Index_cons, Ascii.eqb_refl, take_zero.
    repeat split.
  - simpl in Hnot.
    destruct IH as (Hidx & Htake & Hdrop); [tauto |].
    simpl append. rewrite Index_cons.
    destruct (Ascii.eqb_spec x c) as [-> | Hne]; [elim Hnot; now left |].
    rewrite Hidx.
    destruct (Z.ltb_spec (Z.of_nat (String.length a)) 0) as [Hneg | _];
      [lia |].
    simpl String.length. rewrite take_cons, Htake. simpl strings.drop.
    rewrite Hdrop. repeat split. lia.
Qed.

Lemma countLoop_lower_bound (fuel : nat) :
  forall s n, n <= strings.countLoop fuel s pat n.
Proof.
  induction fuel as [|fuel IH]; intros s n; cbn [strings.countLoop]; [lia |].
  destruct (strings.Index s pat =? -1); [lia |].
  etransitivity; [| apply IH]. lia.
Qed.

Lemma Count_zero (s : string) :
  strings.Count s pat = 0 <-> strings.Index s pat = -1.
Proof.
  unfold strings.Count. cbn [strings.countLoop].
  destruct (Z.eqb_spec (strings.Index s pat) (-1)) as [Heq | Hne].
  - tauto.
  - split; [| intros H'; now elim Hne].
    intros Hzero. exfalso.
    match type of Hzero with
    | strings.countLoop ?f ?t pat (0 + 1) = 0 =>
        pose proof (countLoop_lower_bound f t (0 + 1))
    end.
    lia.
Qed.

Lemma deleteFirst_absent (s : string) :
  ~ In c (bytes s) -> deleteFirst c s = s.
Proof.
  induction s as [|a s IH]; [reflexivity |].
  simpl. intros Hnot.
  destruct (Ascii.eqb_spec a c) as [-> | Hne]; [elim Hnot; now left |].
  f_equal. apply IH. tauto.
Qed.

Lemma deleteFirst_found (a b : string) :
  ~ In c (bytes a) -> deleteFirst c (a ++ String c b) = a ++ b.
Proof.
  induction a as [|x a IH]; intros Hnot.
  - simpl. now rewrite Ascii.eqb_refl.
  - simpl in Hnot |- *.
    destruct (Ascii.eqb_spec x c) as [-> | Hne]; [elim Hnot; now left |].
    f_equal. apply IH. tauto.
Qed.

(** [strings.Replace(s, pat, "", 1)] deletes the first occurrence of the
    byte and nothing else. *)
Lemma Replace_first_by_empty (s : string) :
  strings.Replace s pat "" 1 = deleteFirst c s.
Proof.
  unfold strings.Replace.
  change ((pat =? "")%string) with false. simpl orb.
  destruct (Z.eqb_spec (strings.Count s pat) 0) as [Hzero | Hpos].
  - apply Count_zero, Index_absent in Hzero.
    now rewrite deleteFirst_absent.
  - assert (0 <= strings.Count s pat) as Hge
        by apply countLoop_lower_bound.
    replace (strings.Count s pat <? 1) with false
      by (symmetry; apply Z.ltb_ge; lia).
    simpl.
    assert (0 <= strings.Index s pat) as Hfound.
    { pose proof (Index_lower_bound s).
      destruct (Z.eq_dec (strings.Index s pat) (-1)) as [Habs | Hne];
        [| lia].
      apply Count_zero in Habs. contradiction. }
    destruct (Index_found s Hfound) as [Heq Hnot].
    rewrite <- (deleteFirst_found _ _ Hnot). f_equal.
    symmetry. exact Heq.
Qed.

(** [strings.SplitN(s, pat, 2)] cuts at the first occurrence of the byte. *)
Lemma SplitN_two (s : string) :
  strings.SplitN s pat 2
  = if strings.Index s pat <? 0 then [s]
    else [strings.take (Z.to_nat (strings.Index s pat)) s;
          strings.drop (Z.to_nat (strings.Index s pat) + 1) s].
Proof.
  unfold strings.SplitN.
  change (2 =? 0) with false. change (2 <? 0) with false. cbv iota.
  destruct s as [|a s].
  - reflexivity.
  - replace (2 >? Z.of_nat (String.length (String a s)) + 1) with false.
    + reflexivity.
    + symmetry. rewrite Z.gtb_ltb. apply Z.ltb_ge.
      simpl String.length. lia.
Qed.
End OneBytePattern.

(** ** ResourceCommonParseID *)

Lemma ResourceCommonParseID_cases (id : string) :
  ResourceCommonParseID id
  = if strings.Index id ":" <? 0 then parseIDError id
    else
      let first := strings.take (Z.to_nat (strings.Index id ":")) id in
      let second := strings.drop (Z.to_nat (strings.Index id ":") + 1) id in
      if (first =? "")%string || (second =? "")%string then parseIDError id
      else (first, second, None).
Proof.
  unfold ResourceCommonParseID. rewrite (SplitN_two ":"%char).
  destruct (strings.Index id ":" <? 0); reflexivity.
Qed.

(** Whenever the parse fails, both parts are empty and the error names the
    ID. *)
Lemma ResourceCommonParseID_failure (id first second : string) (e : error) :
  ResourceCommonParseID id = (first, second, Some e) ->
  (first, second, Some e) = parseIDError id.
Proof.
  rewrite ResourceCommonParseID_cases.
  destruct (strings.Index id ":" <? 0); [congruence |].
  cbv zeta. destruct (_ || _); [congruence | discriminate].
Qed.

Lemma ResourceCommonParseID_success (id first second : string) :
  ResourceCommonParseID id = (first, second, None)
  <-> splitsAtFirstColon id first second.
Proof.
  rewrite ResourceCommonParseID_cases. unfold splitsAtFirstColon. split.
  - destruct (Z.ltb_spec (strings.Index id ":") 0) as [Hneg | Hpos];
      [discriminate |].
    cbv zeta.
    destruct (Index_found ":"%char id Hpos) as [Heq Hnot].
    destruct (String.eqb_spec
                (strings.take (Z.to_nat (strings.Index id ":")) id) "")
      as [He1 | Hn1]; [discriminate |].
    destruct (String.eqb_spec
                (strings.drop (Z.to_nat (strings.Index id ":") + 1) id) "")
      as [He2 | Hn2]; [discriminate |].
    simpl orb. intros H. injection H as <- <-.
    repeat split; assumption.
  - intros (Hn1 & Hn2 & Hnot & ->).
    destruct (Index_first_occurrence ":"%char first second Hnot)
      as (Hidx & Htake & Hdrop).
    change (":" ++ second) with (String ":" second).
    rewrite Hidx, Nat2Z.id, Htake, Hdrop.
    destruct (Z.ltb_spec (Z.of_nat (String.length first)) 0); [lia |].
    cbv zeta.
    destruct (String.eqb_spec first "") as [-> | _]; [now elim Hn1 |].
    destruct (String.eqb_spec second "") as [-> | _]; [now elim Hn2 |].
    reflexivity.
Qed.

(** C9: ResourceCommonParseID succeeds exactly on the IDs that have a colon
    with a non-empty part before the first colon and a non-empty part after
    it; what it then returns are these two parts: the first one holds no
    colon, and the first part, a colon and the second part make up the ID
    again. *)
Theorem C9_parse_id_splits_at_first_colon (id : string) :
  (snd (ResourceCommonParseID id) = None
   <-> exists first second, splitsAtFirstColon id first second)
  /\ (forall first second,
        ResourceCommonParseID id = (first, second, None)
        <-> (first <> "" /\ second <> "" /\ ~ In ":"%char (bytes first)
             /\ id = first ++ ":" ++ second)).
Proof.
  split.
  - split.
    + destruct (ResourceCommonParseID id) as [[first second] err] eqn:E.
      simpl. intros ->. exists first, second.
      now apply ResourceCommonParseID_success.
    + intros (first & second & H).
      apply ResourceCommonParseID_success in H. now rewrite H.
  - intros first second. apply ResourceCommonParseID_success.
Qed.

Example parse_id_examples :
  ResourceCommonParseID "cluster-1:pool:a" = ("cluster-1", "pool:a", None)
  /\ ResourceCommonParseID ":pool" = parseIDError ":pool"
  /\ ResourceCommonParseID "cluster-1:" = parseIDError "cluster-1:"
  /\ ResourceCommonParseID "cluster-1" = parseIDError "cluster-1"
  /\ ResourceCommonParseID "" = parseIDError "".
Proof. repeat split; reflexivity. Qed.

(** ** StringToInt *)

(** C8: StringToInt("10G") is 10 with a nil error, and StringToInt("abc") is
    0 with a non-nil error, the syntax error of strconv.Atoi. *)
Theorem C8_string_to_int_examples (a : strconv.Arch) :
  StringToInt a "10G" = (10, None)
  /\ StringToInt a "abc"
     = (0, Some (NumError "Atoi" "abc" strconv.ErrSyntax)).
Proof.
  destruct a; split; reflexivity.
Qed.

(** C10: StringToInt deletes the first "G" of its input, wherever it stands,
    and no other: the result is that of strconv.Atoi on the input without
    its first "G", with 0 as the number when Atoi fails.  So "G10" and "1G0"
    give 10 and a nil error, and "10GG" gives 0 and an error. *)
Theorem C10_string_to_int_deletes_first_G (a : strconv.Arch) :
  (forall s,
      StringToInt a s
      = match strconv.Atoi a (deleteFirst "G" s) with
        | (i, None) => (i, None)
        | (_, Some e) => (0, Some e)
        end)
  /\ StringToInt a "G10" = (10, None)
  /\ StringToInt a "1G0" = (10, None)
  /\ StringToInt a "10GG"
     = (0, Some (NumError "Atoi" "10G" strconv.ErrSyntax)).
Proof.
  split.
  - intros s. unfold StringToInt.
    rewrite (Replace_first_by_empty "G"%char).
    destruct (strconv.Atoi a (deleteFirst "G" s)) as [i [e|]]; reflexivity.
  - destruct a; repeat split; reflexivity.
Qed.

(** ** RetryUntilSuccessOrTimeout *)

Lemma loopRun_success_iff (r : loopResult) (tr : list event) :
  loopRun r tr -> (r = Returned None <-> In (EvCall None) tr).
Proof.
  induction 1 as [| | e elapsed | e elapsed d r tr Hrun IH].
  - split; [discriminate | intros []].
  - split; [intros _; now left | reflexivity].
  - split; [discriminate |].
    intros [H | [H | []]]; discriminate.
  - rewrite IH. simpl. split; [tauto |].
    intros [H | [H | [H | [H | H]]]]; try discriminate. exact H.
Qed.

Lemma loopRun_error (r : loopResult) (tr : list event) :
  loopRun r tr ->
  forall e, r = Returned (Some e) -> e = errors.New "timeout reached".
Proof.
  induction 1 as [| | e0 elapsed | e0 elapsed d r tr Hrun IH]; intros e He.
  - discriminate.
  - discriminate.
  - now injection He as <-.
  - now apply IH.
Qed.

Lemma loopRun_deadline (r : loopResult) (tr : list event) :
  loopRun r tr -> deadlineOnlyAfterFailedCall tr.
Proof.
  unfold deadlineOnlyAfterFailedCall.
  induction 1 as [| | e elapsed | e elapsed d r tr Hrun IH];
    intros pre el post Heq.
  - destruct pre; discriminate.
  - destruct pre as [|x [|y pre]]; discriminate.
  - destruct pre as [|x [|y [|z pre]]]; try discriminate.
    injection Heq as <- _ _. now exists [], e.
  - destruct pre as [|x [|y [|z [|u pre]]]]; try discriminate.
    + injection Heq as <- _ _. now exists [], e.
    + injection Heq as <- <- <- <- Heq.
      destruct (IH _ _ _ Heq) as (pre' & e' & ->).
      now exists (EvCall (Some e) :: EvSince elapsed :: EvLog e
                    :: EvSleep d :: pre'), e'.
Qed.

Lemma loopRun_stops (r : loopResult) (tr : list event) :
  loopRun r tr -> stopsAtFirstSuccess tr.
Proof.
  unfold stopsAtFirstSuccess.
  induction 1 as [| | e elapsed | e elapsed d r tr Hrun IH];
    intros pre post Heq.
  - destruct pre; discriminate.
  - destruct pre as [|x [|y pre]]; try discriminate.
    injection Heq as <-. split; [reflexivity | intros []].
  - destruct pre as [|x [|y [|z pre]]]; discriminate.
  - destruct pre as [|x [|y [|z [|u pre]]]]; try discriminate.
    injection Heq as <- <- <- <- Heq.
    destruct (IH _ _ Heq) as [-> Hnot]. split; [reflexivity |].
    simpl. intros [H | [H | [H | [H | H]]]]; try discriminate.
    now apply Hnot.
Qed.

Section RetryFacts.
Variable World : Type.
Variable clock : World -> Z.
Variable sleep : Z -> World -> World.
Variable fn : FunctionWithError World.
Variables interval timeout : Z.

Let loop := retryLoop clock sleep fn interval timeout.
Let retry := RetryUntilSuccessOrTimeout clock sleep fn interval timeout.

(** Every run of the loop has the shape [loopRun] describes. *)
Lemma retryLoop_run (fuel : nat) :
  forall start w,
    loopRun (resultOf (loop fuel start w)) (traceOf (loop fuel start w)).
Proof.
  unfold loop.
  induction fuel as [|fuel IH]; intros start w; simpl.
  - constructor.
  - destruct (fn w) as [[e|] w1]; [| constructor].
    destruct (clock w1 - start >? timeout); [constructor |].
    specialize (IH start (sleep interval w1)).
    destruct (retryLoop clock sleep fn interval timeout fuel start
                (sleep interval w1)) as [[r tr] w3].
    constructor. exact IH.
Qed.

Lemma retry_unfold (fuel : nat) (w : World) :
  resultOf (retry fuel w) = resultOf (loop fuel (clock w) w)
  /\ traceOf (retry fuel w) = EvNow :: traceOf (loop fuel (clock w) w)
  /\ worldOf (retry fuel w) = worldOf (loop fuel (clock w) w).
Proof.
  unfold retry, loop, RetryUntilSuccessOrTimeout.
  destruct (retryLoop clock sleep fn interval timeout fuel (clock w) w)
    as [[r tr] w'].
  repeat split.
Qed.

(** The first thing a run with any fuel does after reading the clock is to
    call [fn]. *)
Lemma retry_calls_first (fuel : nat) (w : World) :
  exists rest,
    traceOf (retry (S fuel) w) = EvNow :: EvCall (fst (fn w)) :: rest.
Proof.
  destruct (retry_unfold (S fuel) w) as (_ & -> & _).
  unfold loop. simpl.
  destruct (fn w) as [[e|] w1]; simpl.
  - destruct (clock w1 - clock w >? timeout); [eexists; reflexivity |].
    destruct (retryLoop clock sleep fn interval timeout fuel (clock w)
                (sleep interval w1)) as [[r tr] w3].
    eexists; reflexivity.
  - eexists; reflexivity.
Qed.

(** A success ends the run at once, whatever the clock says. *)
Lemma retry_success_at_once (fuel : nat) (w w1 : World) :
  fn w = (None, w1) ->
  retry (S fuel) w = (Returned None, [EvNow; EvCall None], w1).
Proof.
  intros Hfn. unfold retry, RetryUntilSuccessOrTimeout. simpl.
  now rewrite Hfn.
Qed.

(** A first failure past the deadline (a zero or negative timeout
    included) ends the run after that one call. *)
Lemma retry_first_failure_past_deadline (fuel : nat) (w w1 : World) (e : error) :
  fn w = (Some e, w1) ->
  timeout < clock w1 - clock w ->
  retry (S fuel) w
  = (Returned (Some (errors.New "timeout reached")),
     [EvNow; EvCall (Some e); EvSince (clock w1 - clock w)], w1).
Proof.
  intros Hfn Hlate. unfold retry, RetryUntilSuccessOrTimeout. simpl.
  rewrite Hfn.
  replace (clock w1 - clock w >? timeout) with true
    by (symmetry; apply Z.gtb_lt; exact Hlate).
  reflexivity.
Qed.

(** Once a run has returned, more fuel changes nothing. *)
Lemma retryLoop_more_fuel (n : nat) :
  forall start w r,
    resultOf (loop n start w) = Returned r ->
    forall m, (n <= m)%nat -> loop m start w = loop n start w.
Proof.
  unfold loop.
  induction n as [|n IH]; intros start w r Hres m Hle.
  - discriminate.
  - destruct m as [|m]; [lia |].
    simpl in Hres |- *.
    destruct (fn w) as [[e|] w1]; [| reflexivity].
    destruct (clock w1 - start >? timeout); [reflexivity |].
    specialize (IH start (sleep interval w1)).
    destruct (retryLoop clock sleep fn interval timeout n start
                (sleep interval w1)) as [[r' tr] w3] eqn:En.
    unfold resultOf in Hres, IH. simpl in Hres, IH.
    rewrite (IH r Hres m) by lia.
    reflexivity.
Qed.

Let world := roundWorld sleep fn interval.

(** The calls a run records are the calls of [fn] on the worlds of its
    rounds, one after the other. *)
Lemma retryLoop_calls (fuel : nat) :
  forall start w,
    filter isCall (traceOf (loop fuel start w))
    = callsOfRounds sleep fn interval
        (countCalls (traceOf (loop fuel start w))) w.
Proof.
  unfold loop, callsOfRounds, countCalls.
  induction fuel as [|fuel IH]; intros start w; [reflexivity |].
  cbn [retryLoop]. destruct (fn w) as [[e|] w1] eqn:Hfn.
  - destruct (clock w1 - start >? timeout).
    + unfold traceOf. simpl. now rewrite Hfn.
    + specialize (IH start (sleep interval w1)).
      destruct (retryLoop clock sleep fn interval timeout fuel start
                  (sleep interval w1)) as [[r tr] w3].
      unfold traceOf in IH |- *. simpl fst in IH |- *. simpl snd in IH |- *.
      cbn [filter isCall List.length]. rewrite IH at 1.
      cbn [seq map roundWorld]. rewrite Hfn. cbn [fst snd]. f_equal.
      rewrite <- seq_shift, map_map. apply map_ext.
      intros k. cbn [roundWorld]. now rewrite Hfn.
  - unfold traceOf. simpl. now rewrite Hfn.
Qed.

(** The loop returns nil exactly when, within its fuel, a round is reached
    whose call of [fn] returns nil. *)
Lemma retryLoop_success_rounds (fuel : nat) :
  forall start w,
    resultOf (loop fuel start w) = Returned None
    <-> exists k, (k < fuel)%nat
                  /\ firstSuccessAt clock sleep fn interval timeout start k w.
Proof.
  unfold loop, firstSuccessAt.
  induction fuel as [|fuel IH]; intros start w.
  - split; [discriminate | intros (k & Hk & _); lia].
  - cbn [retryLoop]. destruct (fn w) as [[e|] w1] eqn:Hfn.
    + destruct (Z.gtb_spec (clock w1 - start) timeout) as [Hlate | Hearly].
      * split; [discriminate |].
        intros (k & _ & Hnil & Hbefore). exfalso.
        destruct k as [|k].
        -- simpl in Hnil. rewrite Hfn in Hnil. discriminate.
        -- destruct (Hbefore 0%nat ltac:(lia)) as [_ Hle].
           simpl in Hle. rewrite Hfn in Hle. simpl in Hle. lia.
      * specialize (IH start (sleep interval w1)).
        destruct (retryLoop clock sleep fn interval timeout fuel start
                    (sleep interval w1)) as [[r tr] w3].
        unfold resultOf in IH |- *. simpl fst in IH |- *.
        rewrite IH. split.
        -- intros (k & Hk & Hnil & Hbefore). exists (S k).
           split; [lia |]. cbn [roundWorld]. rewrite Hfn. cbn [snd].
           split; [exact Hnil |].
           intros [|j] Hj.
           ++ cbn [roundWorld]. rewrite Hfn. cbn [fst snd].
              split; [discriminate | lia].
           ++ cbn [roundWorld]. rewrite Hfn. cbn [snd].
              apply Hbefore. lia.
        -- intros (k & Hk & Hnil & Hbefore).
           destruct k as [|k].
           { simpl in Hnil. rewrite Hfn in Hnil. discriminate. }
           exists k. split; [lia |].
           cbn [roundWorld] in Hnil. rewrite Hfn in Hnil. cbn [snd] in Hnil.
           split; [exact Hnil |].
           intros j Hj. specialize (Hbefore (S j) ltac:(lia)).
           cbn [roundWorld] in Hbefore. rewrite Hfn in Hbefore.
           exact Hbefore.
    + split; [| reflexivity]. intros _. exists 0%nat.
      split; [lia |]. cbn [roundWorld]. rewrite Hfn.
      split; [reflexivity | intros j Hj; lia].
Qed.

(** Where round [k] holds the first successful call, the loop has made
    [k + 1] calls and leaves the world as that call left it. *)
Lemma retryLoop_stops_after_success (fuel : nat) :
  forall start w k,
    (k < fuel)%nat ->
    firstSuccessAt clock sleep fn interval timeout start k w ->
    countCalls (traceOf (loop fuel start w)) = S k
    /\ worldOf (loop fuel start w) = snd (fn (world k w)).
Proof.
  unfold loop, world, firstSuccessAt, countCalls.
  induction fuel as [|fuel IH]; intros start w k Hk (Hnil & Hbefore); [lia |].
  cbn [retryLoop]. destruct (fn w) as [[e|] w1] eqn:Hfn.
  - destruct k as [|k].
    { simpl in Hnil. rewrite Hfn in Hnil. discriminate. }
    destruct (Z.gtb_spec (clock w1 - start) timeout) as [Hlate | Hearly].
    + exfalso. destruct (Hbefore 0%nat ltac:(lia)) as [_ Hle].
      simpl in Hle. rewrite Hfn in Hle. simpl in Hle. lia.
    + specialize (IH start (sleep interval w1) k ltac:(lia)).
      cbn [roundWorld] in Hnil |- *. rewrite Hfn in Hnil |- *.
      cbn [snd] in Hnil |- *.
      destruct IH as [Hcount Hworld].
      { split; [exact Hnil |]. intros j Hj.
        specialize (Hbefore (S j) ltac:(lia)).
        cbn [roundWorld] in Hbefore. rewrite Hfn in Hbefore. exact Hbefore. }
      destruct (retryLoop clock sleep fn interval timeout fuel start
                  (sleep interval w1)) as [[r tr] w3].
      unfold traceOf, worldOf in *. simpl fst in *. simpl snd in *.
      split; [| exact Hworld].
      cbn [filter isCall List.length]. now rewrite Hcount.
  - destruct k as [|k].
    + unfold traceOf, worldOf. simpl. rewrite Hfn. split; reflexivity.
    + exfalso. destruct (Hbefore 0%nat ltac:(lia)) as [Hfail _].
      simpl in Hfail. rewrite Hfn in Hfail. now apply Hfail.
Qed.

(** C2: whatever [fn], [interval] and [timeout] are (a zero or negative
    timeout included), a run first reads the start time and then calls [fn]
    on the world it was started in, before any deadline comparison; every
    deadline comparison of the run comes right after a failed call; and the
    calls the run records are the calls of [fn] on the worlds of its rounds,
    at least one. *)
Theorem C2_call_precedes_deadline_check (fuel : nat) (w : World) :
  (exists rest,
      traceOf (retry (S fuel) w) = EvNow :: EvCall (fst (fn w)) :: rest)
  /\ deadlineOnlyAfterFailedCall (traceOf (retry (S fuel) w))
  /\ filter isCall (traceOf (retry (S fuel) w))
     = callsOfRounds sleep fn interval
         (countCalls (traceOf (retry (S fuel) w))) w
  /\ (1 <= countCalls (traceOf (retry (S fuel) w)))%nat.
Proof.
  split; [apply retry_calls_first |].
  split.
  - destruct (retry_unfold (S fuel) w) as (_ & -> & _).
    pose proof (loopRun_deadline _ _ (retryLoop_run (S fuel) (clock w) w))
      as Hloop.
    intros pre el post Heq.
    destruct pre as [|x pre]; [discriminate |].
    injection Heq as <- Heq.
    destruct (Hloop _ _ _ Heq) as (pre' & e & ->).
    now exists (EvNow :: pre'), e.
  - split.
    + destruct (retry_unfold (S fuel) w) as (_ & -> & _).
      exact (retryLoop_calls (S fuel) (clock w) w).
    + destruct (retry_calls_first fuel w) as (rest & ->).
      unfold countCalls. simpl. lia.
Qed.

(** C3: a run returns nil exactly when one of the calls of [fn] it makes
    returns nil, that is when within its fuel a round is reached whose call
    returns nil; the calls the run records are the calls of [fn] on the
    worlds of its rounds; the successful call is the first one and the last
    thing the run does: no call and no sleep follows it, and the run leaves
    the world as that call left it. *)
Theorem C3_success_iff_successful_call (fuel : nat) (w : World) :
  (resultOf (retry fuel w) = Returned None
   <-> exists k, (k < fuel)%nat
                 /\ firstSuccessAt clock sleep fn interval timeout
                      (clock w) k w)
  /\ filter isCall (traceOf (retry fuel w))
     = callsOfRounds sleep fn interval
         (countCalls (traceOf (retry fuel w))) w
  /\ (resultOf (retry fuel w) = Returned None
      <-> In (EvCall None) (traceOf (retry fuel w)))
  /\ stopsAtFirstSuccess (traceOf (retry fuel w))
  /\ (forall k,
         (k < fuel)%nat ->
         firstSuccessAt clock sleep fn interval timeout (clock w) k w ->
         countCalls (traceOf (retry fuel w)) = S k
         /\ worldOf (retry fuel w)
            = snd (fn (roundWorld sleep fn interval k w))).
Proof.
  destruct (retry_unfold fuel w) as (-> & -> & ->).
  pose proof (retryLoop_run fuel (clock w) w) as Hrun.
  split; [apply retryLoop_success_rounds |].
  split; [exact (retryLoop_calls fuel (clock w) w) |].
  split; [| split].
  - rewrite (loopRun_success_iff _ _ Hrun). simpl.
    split; [tauto | intros [H | H]; [discriminate | exact H]].
  - intros pre post Heq.
    destruct pre as [|x pre]; [discriminate |].
    injection Heq as <- Heq.
    destruct (loopRun_stops _ _ Hrun _ _ Heq) as [-> Hnot].
    split; [reflexivity |].
    simpl. intros [H | H]; [discriminate | now apply Hnot].
  - intros k Hk Hfirst.
    exact (retryLoop_stops_after_success fuel (clock w) w k Hk Hfirst).
Qed.

(** C4: an error returned by a run is the error "timeout reached",
    whichever error the calls of [fn] produced. *)
Theorem C4_only_timeout_error (fuel : nat) (w : World) (e : error) :
  resultOf (retry fuel w) = Returned (Some e) ->
  e = errors.New "timeout reached".
Proof.
  destruct (retry_unfold fuel w) as (-> & _ & _).
  apply (loopRun_error _ _ (retryLoop_run fuel (clock w) w)).
Qed.
End RetryFacts.

(** The result of a run and the world it leaves do not depend on which errors
    the failed calls reported. *)
Lemma retryLoop_ignores_errors (World : Type) (clock : World -> Z)
    (sleep : Z -> World -> World) (fn fn' : FunctionWithError World)
    (interval timeout : Z) :
  sameButForErrors fn fn' ->
  forall fuel start w,
    resultOf (retryLoop clock sleep fn interval timeout fuel start w)
    = resultOf (retryLoop clock sleep fn' interval timeout fuel start w)
    /\ worldOf (retryLoop clock sleep fn interval timeout fuel start w)
       = worldOf (retryLoop clock sleep fn' interval timeout fuel start w).
Proof.
  intros Hsame. induction fuel as [|fuel IH]; intros start w.
  - split; reflexivity.
  - simpl. destruct (Hsame w) as [Hw Hnone].
    destruct (fn w) as [err w1], (fn' w) as [err' w1'].
    simpl in Hw, Hnone. subst w1'.
    destruct err as [e|], err' as [e'|].
    + destruct (clock w1 - start >? timeout); [split; reflexivity |].
      specialize (IH start (sleep interval w1)).
      destruct (retryLoop clock sleep fn interval timeout fuel start
                  (sleep interval w1)) as [[r tr] w3].
      destruct (retryLoop clock sleep fn' interval timeout fuel start
                  (sleep interval w1)) as [[r' tr'] w3'].
      exact IH.
    + destruct Hnone as [_ H]. discriminate (H eq_refl).
    + destruct Hnone as [H _]. discriminate (H eq_refl).
    + split; reflexivity.
Qed.

Section RetryTermination.
Variable World : Type.
Variable clock : World -> Z.
Variable sleep : Z -> World -> World.
Variable fn : FunctionWithError World.
Variables interval timeout : Z.

(** The clock does not go back during a call, and a sleep lasts at least the
    positive interval. *)
Hypothesis interval_positive : 0 < interval.
Hypothesis call_takes_time : forall w, clock w <= clock (snd (fn w)).
Hypothesis sleep_takes_time :
  forall w, clock w + interval <= clock (sleep interval w).

(** With such a clock the loop returns: [n + 1] rounds are enough when less
    than [n] intervals are left until the deadline. *)
Lemma retryLoop_returns (n : nat) :
  forall start w,
    timeout - (clock w - start) < Z.of_nat n * interval ->
    exists r,
      resultOf (retryLoop clock sleep fn interval timeout (S n) start w)
      = Returned r.
Proof.
  induction n as [|n IH]; intros start w Hleft.
  - simpl. pose proof (call_takes_time w) as Hcall.
    destruct (fn w) as [[e|] w1]; simpl in Hcall; [| now eexists].
    replace (clock w1 - start >? timeout) with true
      by (symmetry; apply Z.gtb_lt; lia).
    now eexists.
  - rewrite Nat2Z.inj_succ in Hleft.
    remember (S n) as k eqn:Hk. cbn [retryLoop].
    pose proof (call_takes_time w) as Hcall.
    destruct (fn w) as [[e|] w1]; simpl in Hcall; [| now eexists].
    destruct (clock w1 - start >? timeout); [now eexists |].
    pose proof (sleep_takes_time w1) as Hsleep.
    destruct (IH start (sleep interval w1)) as (r & Hr); [nia |].
    destruct (retryLoop clock sleep fn interval timeout k start
                (sleep interval w1)) as [[r' tr] w3].
    exists r. exact Hr.
Qed.

(** X20: with a positive interval, a clock that does not go back during a
    call and sleeps that last at least the interval, the run returns within
    [timeout / interval + 2] rounds. *)
Lemma RetryUntilSuccessOrTimeout_returns (w : World) :
  exists r,
    resultOf (RetryUntilSuccessOrTimeout clock sleep fn interval timeout
                (S (Z.to_nat (timeout / interval + 1))) w)
    = Returned r.
Proof.
  destruct (retryLoop_returns (Z.to_nat (timeout / interval + 1)) (clock w) w)
    as (r & Hr).
  - pose proof (Z.mul_succ_div_gt timeout interval interval_positive) as Hdiv.
    assert (Z.of_nat (Z.to_nat (timeout / interval + 1))
            = Z.max 0 (timeout / interval + 1)) as -> by lia.
    unfold Z.succ in Hdiv. set (q := timeout / interval) in *.
    destruct (Z.max_spec 0 (q + 1)) as [[_ ->] | [Hle ->]]; [lia |].
    assert (interval * (q + 1) <= 0) by nia. lia.
  - exists r. unfold RetryUntilSuccessOrTimeout.
    destruct (retryLoop clock sleep fn interval timeout
                (S (Z.to_nat (timeout / interval + 1))) (clock w) w)
      as [[r' tr] w'].
    exact Hr.
Qed.
End RetryTermination.

Lemma C4_only_timeout_error_witness :
  resultOf (RetryUntilSuccessOrTimeout twClock testSleep
              (failsFirst 100 millisecond)
              (10 * millisecond) (50 * millisecond) 10 testStart)
  = Returned (Some (errorString "timeout reached"))
  /\ errorString "timeout reached" = errors.New "timeout reached".
Proof.
  split; [vm_compute; reflexivity |].
  apply (C4_only_timeout_error testWorld twClock testSleep
           (failsFirst 100 millisecond)
           (10 * millisecond) (50 * millisecond) 10 testStart).
  vm_compute. reflexivity.
Defined.

(** An operation that fails twice and then succeeds, polled every 10 ms with
    a timeout of 1 s, returns nil after exactly two sleeps. *)
Example retry_succeeds_on_third_call :
  RetryUntilSuccessOrTimeout twClock testSleep (failsFirst 2 millisecond)
    (10 * millisecond) (1000 * millisecond) 3 testStart
  = (Returned None,
     [EvNow;
      EvCall (Some (errors.New "not ready")); EvSince (1 * millisecond);
      EvLog (errors.New "not ready"); EvSleep (10 * millisecond);
      EvCall (Some (errors.New "not ready")); EvSince (12 * millisecond);
      EvLog (errors.New "not ready"); EvSleep (10 * millisecond);
      EvCall None],
     {| twClock := 23 * millisecond; twCalls := 3 |}).
Proof. vm_compute. reflexivity. Qed.

(** An operation that always fails, polled every 10 ms with a timeout of
    50 ms, ends in the timeout error on its sixth call, 56 ms after the
    start. *)
Example retry_times_out :
  let run :=
    RetryUntilSuccessOrTimeout twClock testSleep (failsFirst 100 millisecond)
      (10 * millisecond) (50 * millisecond) 6 testStart in
  resultOf run = Returned (Some (errors.New "timeout reached"))
  /\ worldOf run = {| twClock := 56 * millisecond; twCalls := 6 |}.
Proof. split; vm_compute; reflexivity. Qed.

(** With a zero timeout and a clock that has moved, the first failure is
    also the last call. *)
Example retry_zero_timeout :
  RetryUntilSuccessOrTimeout twClock testSleep (failsFirst 100 millisecond)
    (10 * millisecond) 0 4 testStart
  = (Returned (Some (errors.New "timeout reached")),
     [EvNow; EvCall (Some (errors.New "not ready")); EvSince millisecond],
     {| twClock := millisecond; twCalls := 1 |}).
Proof. vm_compute. reflexivity. Qed.


(** * Further properties *)

(** ** The validators on every input *)

Lemma assertStringOk_true (v : any) (value : string) :
  assertStringOk v = (value, true) <-> v = VString value.
Proof.
  destruct v; simpl; split; intros H; try discriminate; congruence.
Qed.

(** X1: The three validators that return warnings and errors never warn and
    report at most one error, whatever they are given. *)
Theorem legacy_validators_no_warning_one_error (v : any) (k : string) :
  (fst (ValidateName v k) = [] /\ (List.length (snd (ValidateName v k)) <= 1)%nat)
  /\ (fst (ValidateCNIName v k) = []
      /\ (List.length (snd (ValidateCNIName v k)) <= 1)%nat)
  /\ (fst (ValidateNameSize v k) = []
      /\ (List.length (snd (ValidateNameSize v k)) <= 1)%nat).
Proof.
  unfold ValidateName, ValidateCNIName, ValidateNameSize.
  destruct (assertStringOk v) as [value [|]]; simpl.
  - destruct (regexp.Match whiteSpace value); simpl.
    + repeat split; lia.
    + destruct (negb (value =? "flannel")%string && negb (value =? "cilium")%string),
               (Z.of_nat (String.length value) >? 63);
        simpl; repeat split; lia.
  - repeat split; lia.
Qed.

(** X2: ValidateName accepts exactly the strings without whitespace. *)
Theorem ValidateName_accepts_iff (v : any) (k : string) :
  snd (ValidateName v k) = []
  <-> exists s, v = VString s /\ containsWhitespace s = false.
Proof.
  unfold ValidateName. destruct v; simpl;
    try (split; [discriminate | intros (s0 & H & _); discriminate]).
  rewrite Match_whiteSpace.
  destruct (containsWhitespace s) eqn:E; simpl.
  - split; [discriminate |]. intros (s0 & H & Hws).
    injection H as <-. congruence.
  - split; [intros _; now exists s | reflexivity].
Qed.

(** X3: ValidateCNIName accepts exactly the strings "flannel" and "cilium". *)
Theorem ValidateCNIName_accepts_iff (v : any) (k : string) :
  snd (ValidateCNIName v k) = []
  <-> v = VString "flannel" \/ v = VString "cilium".
Proof.
  unfold ValidateCNIName. destruct v; simpl;
    try (split; [discriminate | intros [H | H]; discriminate]).
  rewrite Match_whiteSpace.
  destruct (containsWhitespace s) eqn:E; simpl.
  - split; [discriminate |].
    intros [H | H]; injection H as ->; discriminate.
  - destruct (String.eqb_spec s "flannel") as [-> | Hf]; simpl.
    + split; [now left | reflexivity].
    + destruct (String.eqb_spec s "cilium") as [-> | Hc]; simpl.
      * split; [now right | reflexivity].
      * split; [discriminate |].
        intros [H | H]; injection H as ->; contradiction.
Qed.



(** X6: On a string ValidateNameOnlyContainsAlphanumericCharacters returns, and
    it returns no diagnostic exactly when the string is not empty and made of
    letters, digits, hyphens, underscores and dots only; the empty string is
    answered with the character-set diagnostic. *)
Theorem alphanumeric_validator_accepts_iff (s : string) (p : cty.Path) :
  (ValidateNameOnlyContainsAlphanumericCharacters (VString s) p = Returns []
   <-> onlyNameChars s = true)
  /\ ValidateNameOnlyContainsAlphanumericCharacters (VString "") p
     = Returns [alphanumericDiag ""].
Proof.
  split; [| reflexivity].
  rewrite alphanumeric_validator_on_string. split.
  - destruct (onlyNameChars s); [reflexivity |].
    destruct (containsWhitespace s); discriminate.
  - intros H. rewrite (onlyNameChars_no_whitespace s H), H. reflexivity.
Qed.

(** X7: The diagnostics of ValidateNameOnlyContainsAlphanumericCharacters on a
    string are errors, at most two, and the whitespace diagnostic never comes
    alone: the character-set diagnostic follows it. *)
Theorem alphanumeric_validator_diagnostics_shape (s : string) (p : cty.Path) :
  exists ds,
    ValidateNameOnlyContainsAlphanumericCharacters (VString s) p = Returns ds
    /\ (List.length ds <= 2)%nat
    /\ (forall d, In d ds -> diag.severity d = diag.Error)
    /\ (In (whitespaceDiag s) ds -> In (alphanumericDiag s) ds).
Proof.
  rewrite alphanumeric_validator_on_string.
  eexists. split; [reflexivity |].
  destruct (containsWhitespace s) eqn:Ews.
  - assert (onlyNameChars s = false) as ->.
    { destruct (onlyNameChars s) eqn:E; [| reflexivity].
      apply onlyNameChars_no_whitespace in E. congruence. }
    simpl. repeat split; [lia | | tauto].
    intros d [<- | [<- | []]]; reflexivity.
  - destruct (onlyNameChars s); simpl.
    + repeat split; [lia | intros d [] | tauto].
    + repeat split; [lia | intros d [<- | []]; reflexivity |].
      intros [H | []]. discriminate.
Qed.

(** X8: A name the character-set validator accepts is accepted by ValidateName,
    and by ValidateNameSize too when it has at most 63 bytes. *)
Theorem alphanumeric_validator_implies_ValidateName
    (s k : string) (p : cty.Path) :
  ValidateNameOnlyContainsAlphanumericCharacters (VString s) p = Returns [] ->
  ValidateName (VString s) k = ([], [])
  /\ ((String.length s <= 63)%nat -> ValidateNameSize (VString s) k = ([], [])).
Proof.
  intros H. apply alphanumeric_validator_accepts_iff in H.
  apply onlyNameChars_no_whitespace in H.
  unfold ValidateName, ValidateNameSize. simpl.
  rewrite Match_whiteSpace, H. split; [reflexivity |].
  intros Hlen.
  destruct (Z.gtb_spec (Z.of_nat (String.length s)) 63); [lia | reflexivity].
Qed.

Lemma alphanumeric_validator_implies_ValidateName_witness :
  ValidateNameOnlyContainsAlphanumericCharacters (VString "my-cluster.1") []
  = Returns []
  /\ ValidateName (VString "my-cluster.1") "name" = ([], [])
  /\ ValidateNameSize (VString "my-cluster.1") "name" = ([], []).
Proof.
  split; [reflexivity |].
  destruct (alphanumeric_validator_implies_ValidateName
              "my-cluster.1" "name" [] eq_refl) as [Hname Hsize].
  split; [exact Hname |]. apply Hsize. simpl. lia.
Defined.

(** ** Strings: append, prefixes and occurrences *)

Lemma append_assoc (a b c : string) : (a ++ b) ++ c = a ++ b ++ c.
Proof.
  induction a as [|x a IH]; simpl; [reflexivity | now rewrite IH].
Qed.

Lemma bytes_append (a b : string) : bytes (a ++ b) = (bytes a ++ bytes b)%list.
Proof.
  unfold bytes. induction a as [|x a IH]; simpl; [reflexivity |].
  now rewrite IH.
Qed.

Lemma HasPrefix_iff (s p : string) :
  strings.HasPrefix s p = true <-> exists post, s = p ++ post.
Proof.
  unfold strings.HasPrefix. revert s.
  induction p as [|a p IH]; intros s.
  - split; [intros _; now exists s |]. intros _. destruct s; reflexivity.
  - destruct s as [|b s]; simpl.
    + split; [discriminate | intros (post & H); discriminate].
    + destruct (ascii_dec a b) as [-> | Hne].
      * rewrite IH. split.
        -- intros (post & ->). now exists post.
        -- intros (post & H). injection H as ->. now exists post.
      * split; [discriminate |].
        intros (post & H). injection H as <- _. now elim Hne.
Qed.

Lemma Index_unfold (s substr : string) :
  strings.Index s substr
  = if strings.HasPrefix s substr then 0
    else match s with
         | EmptyString => -1
         | String _ s' =>
             if strings.Index s' substr <? 0 then -1
             else strings.Index s' substr + 1
         end.
Proof. destruct s; reflexivity. Qed.

Lemma Index_at_least_minus_one (s substr : string) :
  -1 <= strings.Index s substr.
Proof.
  induction s as [|a s IH]; rewrite Index_unfold;
    destruct (strings.HasPrefix _ substr); try lia.
  destruct (Z.ltb_spec (strings.Index s substr) 0); lia.
Qed.

(** [Index] finds an occurrence exactly when there is one. *)
Lemma Index_found_iff (s substr : string) :
  0 <= strings.Index s substr <-> isSubstring substr s.
Proof.
  unfold isSubstring. induction s as [|a s IH]; rewrite Index_unfold.
  - destruct (strings.HasPrefix "" substr) eqn:E.
    + apply HasPrefix_iff in E. destruct E as (post & E).
      split; [intros _; now exists "", post | lia].
    + split; [lia |]. intros (pre & post & H).
      destruct pre; [| discriminate]. simpl in H.
      assert (strings.HasPrefix "" substr = true) as Hp
          by (apply HasPrefix_iff; now exists post).
      congruence.
  - destruct (strings.HasPrefix (String a s) substr) eqn:E.
    + apply HasPrefix_iff in E. destruct E as (post & E).
      split; [intros _; now exists "", post | lia].
    + pose proof (Index_at_least_minus_one s substr) as Hlb.
      destruct (Z.ltb_spec (strings.Index s substr) 0) as [Hneg | Hpos].
      * split; [lia |]. intros (pre & post & H).
        destruct pre as [|x pre]; simpl in H.
        -- assert (strings.HasPrefix (String a s) substr = true) as Hp
               by (apply HasPrefix_iff; now exists post).
           congruence.
        -- injection H as _ H.
           assert (0 <= strings.Index s substr)
             by (apply IH; now exists pre, post).
           lia.
      * split; [| lia]. intros _.
        destruct (proj1 IH Hpos) as (pre & post & ->).
        now exists (String a pre), post.
Qed.

Lemma Contains_iff (s substr : string) :
  strings.Contains s substr = true <-> isSubstring substr s.
Proof.
  unfold strings.Contains. rewrite <- Index_found_iff.
  rewrite Z.geb_leb. apply Z.leb_le.
Qed.

Lemma isSubstring_extend (sub s pre post : string) :
  isSubstring sub s -> isSubstring sub (pre ++ s ++ post).
Proof.
  intros (p & q & ->). exists (pre ++ p), (q ++ post).
  now rewrite !append_assoc.
Qed.

(** ** CheckAPPName and InPool *)

Lemma checkAPPNameLoop_iff (appName : string)
    (allAPP : list civogo.KubernetesMarketplaceApplication) :
  checkAPPNameLoop appName allAPP = true
  <-> exists v, In v allAPP /\ isSubstring (civogo.Name v) appName.
Proof.
  induction allAPP as [|v rest IH]; simpl.
  - split; [discriminate | intros (v & [] & _)].
  - destruct (strings.Contains appName (civogo.Name v)) eqn:E.
    + apply Contains_iff in E. split; [| reflexivity].
      intros _. exists v. split; [now left | exact E].
    + rewrite IH. split.
      * intros (u & Hin & Hsub). exists u. split; [now right | exact Hsub].
      * intros (u & [<- | Hin] & Hsub).
        -- apply Contains_iff in Hsub. congruence.
        -- now exists u.
Qed.

(** X13: CheckAPPName answers true exactly when the API call succeeded and the
    name of one of the listed applications occurs within [appName]; a failed
    call gives false, whatever it lists. *)
Theorem CheckAPPName_true_iff (appName : string) (client : civogo.Client) :
  CheckAPPName appName client = true
  <-> snd (civogo.ListKubernetesMarketplaceApplications client) = None
      /\ exists v,
           In v (fst (civogo.ListKubernetesMarketplaceApplications client))
           /\ isSubstring (civogo.Name v) appName.
Proof.
  unfold CheckAPPName.
  destruct (civogo.ListKubernetesMarketplaceApplications client)
    as [allAPP [e|]]; simpl.
  - split; [discriminate | intros [H _]; discriminate].
  - rewrite checkAPPNameLoop_iff. split; [intros H; split; auto | tauto].
Qed.

(** X14: CheckAPPName looks for the application names inside [appName]: a name
    it accepts stays accepted with any text put before and after it. *)
Theorem CheckAPPName_closed_under_extension
    (appName pre post : string) (client : civogo.Client) :
  CheckAPPName appName client = true ->
  CheckAPPName (pre ++ appName ++ post) client = true.
Proof.
  rewrite !CheckAPPName_true_iff. intros (Herr & v & Hin & Hsub).
  split; [exact Herr |]. exists v. split; [exact Hin |].
  now apply isSubstring_extend.
Qed.

Lemma CheckAPPName_closed_under_extension_witness :
  CheckAPPName "traefik2"
    (clientAnswering ["metrics-server"; "traefik2"]) = true
  /\ CheckAPPName ("x-" ++ "traefik2" ++ "-nodeport")
       (clientAnswering ["metrics-server"; "traefik2"]) = true.
Proof.
  split; [reflexivity |].
  apply (CheckAPPName_closed_under_extension "traefik2" "x-" "-nodeport").
  reflexivity.
Defined.

(** X15: An application listed with an empty name makes CheckAPPName accept every
    name. *)
Theorem CheckAPPName_empty_application_name
    (appName : string) (client : civogo.Client) :
  snd (civogo.ListKubernetesMarketplaceApplications client) = None ->
  In (civogo.Build_KubernetesMarketplaceApplication "")
     (fst (civogo.ListKubernetesMarketplaceApplications client)) ->
  CheckAPPName appName client = true.
Proof.
  intros Herr Hin. apply CheckAPPName_true_iff. split; [exact Herr |].
  eexists. split; [exact Hin |]. now exists "", appName.
Qed.

Lemma CheckAPPName_empty_application_name_witness :
  CheckAPPName "anything" (clientAnswering ["traefik2"; ""]) = true.
Proof.
  apply CheckAPPName_empty_application_name; [reflexivity |].
  simpl. right. now left.
Defined.

(** X16: InPool answers true exactly when a pool of the list has the ID. *)
Theorem InPool_true_iff (id : string)
    (pools : list civogo.KubernetesClusterPoolConfig) :
  InPool id pools = true <-> exists b, In b pools /\ civogo.ID b = id.
Proof.
  induction pools as [|b rest IH]; simpl.
  - split; [discriminate | intros (b & [] & _)].
  - destruct (String.eqb_spec (civogo.ID b) id) as [Heq | Hne].
    + split; [| reflexivity]. intros _. exists b. split; [now left | exact Heq].
    + rewrite IH. split.
      * intros (u & Hin & Hid). exists u. split; [now right | exact Hid].
      * intros (u & [<- | Hin] & Hid); [contradiction | now exists u].
Qed.

(** InPool of two lists put together is InPool of either. *)
Theorem InPool_app (id : string)
    (l1 l2 : list civogo.KubernetesClusterPoolConfig) :
  InPool id (l1 ++ l2)%list = InPool id l1 || InPool id l2.
Proof.
  induction l1 as [|b l1 IH]; simpl; [reflexivity |].
  destruct (civogo.ID b =? id)%string; [reflexivity | exact IH].
Qed.

(** ** ResourceCommonParseID: the IDs it rejects *)

(** X9: ResourceCommonParseID rejects exactly the IDs without a colon, the IDs
    that begin with a colon, and the IDs whose first colon is their last
    byte; it then returns two empty strings and the error naming the ID. *)
Theorem ResourceCommonParseID_rejects_iff (id : string) :
  ResourceCommonParseID id = parseIDError id
  <-> (~ In ":"%char (bytes id)
       \/ (exists rest, id = ":" ++ rest)
       \/ (exists first, ~ In ":"%char (bytes first) /\ id = first ++ ":")).
Proof.
  rewrite ResourceCommonParseID_cases.
  pose proof (Index_lower_bound ":"%char id) as Hlb.
  destruct (Z.ltb_spec (strings.Index id ":") 0) as [Hneg | Hpos].
  - split; [| reflexivity]. intros _. left.
    apply (Index_absent ":"%char). lia.
  - cbv zeta.
    destruct (Index_found ":"%char id Hpos) as [Heq Hnot].
    set (first := strings.take (Z.to_nat (strings.Index id ":")) id) in *.
    set (second := strings.drop (Z.to_nat (strings.Index id ":") + 1) id) in *.
    destruct (String.eqb_spec first "") as [He1 | Hn1]; simpl orb.
    + split; [| reflexivity]. intros _. right. left.
      exists second. rewrite Heq at 1. now rewrite He1.
    + destruct (String.eqb_spec second "") as [He2 | Hn2].
      * split; [| reflexivity]. intros _. right. right.
        exists first. split; [exact Hnot |]. rewrite Heq at 1. now rewrite He2.
      * split; [discriminate |].
        intros [Hno | [(rest & Hrest) | (f & Hf & Hid)]].
        -- apply (Index_absent ":"%char) in Hno. lia.
        -- destruct (Index_first_occurrence ":"%char "" rest)
             as (_ & Htake & _); [intros [] |].
           simpl in Htake. exfalso. apply Hn1. unfold first.
           destruct (Index_first_occurrence ":"%char "" rest)
             as (Hidx & _ & _); [intros [] |].
           simpl append in Hidx. rewrite Hrest. simpl append.
           rewrite Hidx. reflexivity.
        -- exfalso. apply Hn2. unfold second.
           destruct (Index_first_occurrence ":"%char f "" Hf)
             as (Hidx & _ & Hdrop).
           rewrite Hid. change (f ++ ":") with (f ++ String ":" "").
           rewrite Hidx, Nat2Z.id. exact Hdrop.
Qed.

(** ** sort.Strings *)

Lemma string_leb_trans (s1 s2 s3 : string) :
  String.leb s1 s2 = true -> String.leb s2 s3 = true ->
  String.leb s1 s3 = true.
Proof.
  unfold String.leb. revert s2 s3.
  induction s1 as [|c1 s1 IH]; intros [|c2 s2] [|c3 s3]; simpl;
    try reflexivity; try discriminate.
  unfold Ascii.compare.
  destruct (N.compare_spec (N_of_ascii c1) (N_of_ascii c2)) as [H12|H12|H12],
           (N.compare_spec (N_of_ascii c2) (N_of_ascii c3)) as [H23|H23|H23],
           (N.compare_spec (N_of_ascii c1) (N_of_ascii c3)) as [H13|H13|H13];
    try discriminate; try reflexivity; try lia.
  apply IH.
Qed.

Lemma insert_permutation (x : string) (l : list string) :
  Permutation (sort.insert x l) (x :: l).
Proof.
  induction l as [|y l IH]; simpl; [reflexivity |].
  destruct (String.leb x y); [reflexivity |].
  rewrite IH. apply perm_swap.
Qed.

Lemma Strings_permutation (l : list string) : Permutation (sort.Strings l) l.
Proof.
  induction l as [|a l IH]; simpl; [reflexivity |].
  rewrite insert_permutation. now constructor.
Qed.

Lemma insert_sorted (x : string) (l : list string) :
  stringsSorted l -> stringsSorted (sort.insert x l).
Proof.
  unfold stringsSorted. induction 1 as [|y l Hs IH Hall]; simpl.
  - repeat constructor.
  - destruct (String.leb x y) eqn:E.
    + constructor; [now constructor |].
      constructor; [exact E |].
      eapply Forall_impl; [| exact Hall].
      intros z Hz. eapply string_leb_trans; eauto.
    + constructor; [exact IH |].
      rewrite insert_permutation.
      constructor; [| exact Hall].
      destruct (String.leb_total x y) as [H | H]; [congruence | exact H].
Qed.

Lemma Strings_sorted (l : list string) : stringsSorted (sort.Strings l).
Proof.
  induction l as [|a l IH]; simpl; [constructor | now apply insert_sorted].
Qed.

(** A list of strings has one sorted arrangement only. *)
Lemma sorted_permutation_unique (l l' : list string) :
  stringsSorted l -> stringsSorted l' -> Permutation l l' -> l = l'.
Proof.
  unfold stringsSorted. intros Hs. revert l'.
  induction Hs as [|a l Hs IH Hall]; intros l' Hs' Hperm.
  - apply Permutation_nil in Hperm. now subst.
  - destruct Hs' as [|b l' Hs' Hall'].
    + apply Permutation_sym, Permutation_nil in Hperm. discriminate.
    + assert (a = b) as ->.
      { assert (In a (b :: l')) as Ha
            by (eapply Permutation_in; [exact Hperm | now left]).
        assert (In b (a :: l)) as Hb
            by (eapply Permutation_in;
                [symmetry; exact Hperm | now left]).
        destruct Ha as [-> | Ha]; [reflexivity |].
        destruct Hb as [-> | Hb]; [reflexivity |].
        rewrite Forall_forall in Hall, Hall'.
        apply String.leb_antisym; auto. }
      f_equal. apply IH; [exact Hs' |].
      eapply Permutation_cons_inv; exact Hperm.
Qed.

Lemma Strings_order_independent (l l' : list string) :
  Permutation l l' -> sort.Strings l = sort.Strings l'.
Proof.
  intros Hperm. apply sorted_permutation_unique; try apply Strings_sorted.
  rewrite !Strings_permutation. exact Hperm.
Qed.

(** ** GetCommaSeparatedAllowedKeys *)

Lemma quote_loop (keys acc : list string) :
  fold_left (fun res ak => (res ++ [fmt.Sprintf_s "`" "`" ak])%list) keys acc
  = (acc ++ map quoted keys)%list.
Proof.
  revert acc. induction keys as [|k keys IH]; intros acc; simpl.
  - now rewrite app_nil_r.
  - rewrite IH, <- app_assoc. reflexivity.
Qed.

Lemma GetCommaSeparatedAllowedKeys_unfold (keys : list string) :
  GetCommaSeparatedAllowedKeys keys
  = strings.Join (sort.Strings (map quoted keys)) ", ".
Proof.
  unfold GetCommaSeparatedAllowedKeys. now rewrite quote_loop.
Qed.

Lemma Join_cons (e : string) (rest : list string) (sep : string) :
  rest <> [] ->
  strings.Join (e :: rest) sep = e ++ sep ++ strings.Join rest sep.
Proof.
  destruct rest; [intros H; now elim H | reflexivity].
Qed.

Lemma Join_contains (elems : list string) (sep e : string) :
  In e elems -> isSubstring e (strings.Join elems sep).
Proof.
  induction elems as [|x elems IH]; intros Hin; [destruct Hin |].
  destruct elems as [|y elems].
  - destruct Hin as [-> | []]. exists "", "". simpl. now rewrite append_empty_r.
  - rewrite Join_cons by discriminate.
    destruct Hin as [-> | Hin].
    + now exists "", (sep ++ strings.Join (y :: elems) sep).
    + destruct (IH Hin) as (pre & post & ->).
      exists (x ++ sep ++ pre), post. now rewrite !append_assoc.
Qed.

(** X17: The text GetCommaSeparatedAllowedKeys builds does not depend on the order
    in which the keys are given. *)
Theorem GetCommaSeparatedAllowedKeys_order_independent
    (keys keys' : list string) :
  Permutation keys keys' ->
  GetCommaSeparatedAllowedKeys keys = GetCommaSeparatedAllowedKeys keys'.
Proof.
  intros Hperm. rewrite !GetCommaSeparatedAllowedKeys_unfold. f_equal.
  apply Strings_order_independent. now apply Permutation_map.
Qed.

Lemma GetCommaSeparatedAllowedKeys_order_independent_witness :
  Permutation ["size"; "count"; "label"] ["label"; "size"; "count"]
  /\ GetCommaSeparatedAllowedKeys ["size"; "count"; "label"]
     = GetCommaSeparatedAllowedKeys ["label"; "size"; "count"].
Proof.
  assert (Permutation ["size"; "count"; "label"] ["label"; "size"; "count"])
    as Hperm.
  { apply (@Permutation_cons_app _ ["count"; "label"] ["label"] ["count"] "size").
    apply perm_swap. }
  split; [exact Hperm |].
  apply (GetCommaSeparatedAllowedKeys_order_independent _ _ Hperm).
Defined.

(** X18: GetCommaSeparatedAllowedKeys joins with ", " the keys between back
    quotes, each as often as it is given, in increasing order of the quoted
    keys. *)
Theorem GetCommaSeparatedAllowedKeys_sorted_quoted_keys (keys : list string) :
  exists items,
    GetCommaSeparatedAllowedKeys keys = strings.Join items ", "
    /\ Permutation items (map quoted keys)
    /\ stringsSorted items.
Proof.
  exists (sort.Strings (map quoted keys)).
  split; [apply GetCommaSeparatedAllowedKeys_unfold |].
  split; [apply Strings_permutation | apply Strings_sorted].
Qed.

(** X19: Every key given occurs in the text, between back quotes. *)
Theorem GetCommaSeparatedAllowedKeys_shows_every_key
    (keys : list string) (key : string) :
  In key keys ->
  isSubstring (quoted key) (GetCommaSeparatedAllowedKeys keys).
Proof.
  intros Hin. rewrite GetCommaSeparatedAllowedKeys_unfold.
  apply Join_contains.
  eapply Permutation_in; [symmetry; apply Strings_permutation |].
  now apply in_map.
Qed.

Lemma GetCommaSeparatedAllowedKeys_shows_every_key_witness :
  In "size" ["size"; "count"]
  /\ isSubstring (quoted "size") (GetCommaSeparatedAllowedKeys ["size"; "count"]).
Proof.
  split; [now left |].
  apply (GetCommaSeparatedAllowedKeys_shows_every_key ["size"; "count"] "size").
  now left.
Defined.

(** The order is that of the quoted keys, not of the keys: the closing back
    quote ranks above the capital letters, so a key can come after a longer
    key it begins. *)
Example GetCommaSeparatedAllowedKeys_examples :
  GetCommaSeparatedAllowedKeys [] = ""
  /\ GetCommaSeparatedAllowedKeys ["size"; "count"; "size"]
     = "`count`, `size`, `size`"
  /\ GetCommaSeparatedAllowedKeys ["a"; "aB"] = "`aB`, `a`".
Proof. repeat split; reflexivity. Qed.

(** ** strconv.Atoi and StringToInt *)

Lemma int_bounds (a : strconv.Arch) :
  2 ^ (strconv.IntSize a - 1) = maxInt a + 1
  /\ 2 ^ strconv.IntSize a - 1 = 2 * maxInt a + 1
  /\ minInt a = - (maxInt a + 1)
  /\ 0 < maxInt a.
Proof. destruct a; vm_compute; repeat split. Qed.

Lemma parseDigits_Value (maxVal : Z) (s : string) :
  forall n un,
    0 <= n ->
    strconv.parseDigits maxVal s n = strconv.Value un ->
    n <= un <= maxVal \/ (s = "" /\ un = n).
Proof.
  induction s as [|c s IH]; intros n un Hn; simpl.
  - intros H. injection H as <-. now right.
  - destruct ((Z.of_nat (nat_of_ascii c) - 48 <? 0)
              || (9 <? Z.of_nat (nat_of_ascii c) - 48)) eqn:Ed;
      [discriminate |].
    apply orb_false_iff in Ed. destruct Ed as [Hlo Hhi].
    apply Z.ltb_ge in Hlo. apply Z.ltb_ge in Hhi.
    destruct (Z.gtb_spec (n * 10 + (Z.of_nat (nat_of_ascii c) - 48)) maxVal)
      as [Hgt | Hle]; [discriminate |].
    intros H. apply IH in H; [| lia]. left.
    destruct H as [H | [_ ->]]; lia.
Qed.

Lemma parseDigits_Value_digits (maxVal : Z) (s : string) :
  forall n un,
    strconv.parseDigits maxVal s n = strconv.Value un ->
    forall c, In c (bytes s) -> isDigit c = true.
Proof.
  induction s as [|x s IH]; intros n un H c Hin; [destruct Hin |].
  simpl in H.
  destruct ((Z.of_nat (nat_of_ascii x) - 48 <? 0)
            || (9 <? Z.of_nat (nat_of_ascii x) - 48)) eqn:Ed;
    [discriminate |].
  apply orb_false_iff in Ed. destruct Ed as [Hlo Hhi].
  apply Z.ltb_ge in Hlo. apply Z.ltb_ge in Hhi.
  destruct (n * 10 + (Z.of_nat (nat_of_ascii x) - 48) >? maxVal);
    [discriminate |].
  destruct Hin as [<- | Hin].
  - unfold isDigit. apply andb_true_iff. split; apply Nat.leb_le; lia.
  - eapply IH; eauto.
Qed.

(** What strconv.Atoi accepts: an optional sign and decimal digits, with a
    value that fits [int]. *)
Lemma Atoi_success (a : strconv.Arch) (s : string) (i : Z) :
  strconv.Atoi a s = (i, None) ->
  minInt a <= i <= maxInt a
  /\ exists sign digits,
       s = sign ++ digits
       /\ (sign = "" \/ sign = "-" \/ sign = "+")
       /\ forall c, In c (bytes digits) -> isDigit c = true.
Proof.
  destruct (int_bounds a) as (Hcut & Hmax & Hmin & Hpos).
  unfold strconv.Atoi. rewrite Hcut, Hmax.
  destruct s as [|c rest]; [discriminate |].
  set (neg := (c =? "-")%char).
  set (t := if neg || (c =? "+")%char then rest else String c rest).
  assert (exists sign, String c rest = sign ++ t
                       /\ (sign = "" \/ sign = "-" \/ sign = "+")
                       /\ (neg = true -> sign = "-")) as (sign & Hs & Hsign & Hneg).
  { unfold t, neg. destruct (Ascii.eqb_spec c "-") as [-> | Hm]; simpl.
    - exists "-". auto.
    - destruct (Ascii.eqb_spec c "+") as [-> | Hp].
      + exists "+". repeat split; auto. discriminate.
      + exists "". repeat split; auto. discriminate. }
  destruct t as [|c' t'] eqn:Et; [discriminate |].
  destruct (strconv.parseDigits (2 * maxInt a + 1) (String c' t') 0)
    as [un | |] eqn:Ep; [| discriminate | destruct neg; discriminate].
  pose proof (parseDigits_Value_digits _ _ _ _ Ep) as Hdigits.
  apply parseDigits_Value in Ep; [| lia].
  destruct Ep as [Hun | [Habs _]]; [| discriminate].
  destruct (negb neg && (un >=? maxInt a + 1)) eqn:E1; [discriminate |].
  destruct (neg && (un >? maxInt a + 1)) eqn:E2; [discriminate |].
  intros H. injection H as <-.
  split.
  - destruct neg; simpl in E1, E2.
    + rewrite Z.gtb_ltb in E2. apply Z.ltb_ge in E2. lia.
    + rewrite Z.geb_leb in E1. apply Z.leb_gt in E1. lia.
  - exists sign, (String c' t'). auto.
Qed.

(** X10: Whatever StringToInt returns without an error is a value of [int]. *)
Theorem StringToInt_result_in_range (a : strconv.Arch) (s : string) (i : Z) :
  StringToInt a s = (i, None) -> minInt a <= i <= maxInt a.
Proof.
  unfold StringToInt.
  destruct (strconv.Atoi a (strings.Replace s "G" "" 1)) as [j [e|]] eqn:E;
    [discriminate |].
  intros H. injection H as <-. now apply Atoi_success in E.
Qed.

Lemma StringToInt_result_in_range_witness :
  StringToInt strconv.Arch32 "-2147483648G" = (-2147483648, None)
  /\ minInt strconv.Arch32 <= -2147483648 <= maxInt strconv.Arch32.
Proof.
  split; [reflexivity |].
  apply (StringToInt_result_in_range strconv.Arch32 "-2147483648G").
  reflexivity.
Defined.

Lemma in_deleteFirst (c x : ascii) (s : string) :
  In x (bytes s) -> x = c \/ In x (bytes (deleteFirst c s)).
Proof.
  induction s as [|y s IH]; simpl; [tauto |].
  destruct (Ascii.eqb_spec y c) as [-> | Hne].
  - intros [<- | Hin]; auto.
  - simpl. intros [<- | Hin]; [auto |]. tauto.
Qed.

Lemma occurrences_deleteFirst (c : ascii) (s : string) :
  (2 <= occurrences c s)%nat -> In c (bytes (deleteFirst c s)).
Proof.
  unfold occurrences.
  induction s as [|y s IH]; simpl; [lia |].
  destruct (ascii_dec y c) as [-> | Hne].
  - rewrite Ascii.eqb_refl. intros H.
    apply (count_occ_In ascii_dec). lia.
  - destruct (Ascii.eqb_spec y c) as [-> | _]; [now elim Hne |].
    intros H. simpl. right. now apply IH.
Qed.

(** X11: A string StringToInt accepts is made of decimal digits, at most one "G"
    and signs: any other byte, a second "G" included, makes it return 0 and
    an error. *)
Theorem StringToInt_accepts_digits_and_one_G
    (a : strconv.Arch) (s : string) (i : Z) :
  StringToInt a s = (i, None) ->
  (occurrences "G" s <= 1)%nat
  /\ forall c, In c (bytes s) ->
       isDigit c = true \/ c = "G"%char \/ c = "-"%char \/ c = "+"%char.
Proof.
  unfold StringToInt. rewrite (Replace_first_by_empty "G"%char).
  destruct (strconv.Atoi a (deleteFirst "G" s)) as [j [e|]] eqn:E;
    [discriminate |].
  intros _. apply Atoi_success in E.
  destruct E as (_ & sign & digits & Hs & Hsign & Hdigits).
  assert (forall c, In c (bytes (deleteFirst "G" s)) ->
                    isDigit c = true \/ c = "-"%char \/ c = "+"%char) as Hall.
  { intros c Hin. rewrite Hs, bytes_append in Hin.
    apply in_app_or in Hin. destruct Hin as [Hin | Hin]; [| auto].
    destruct Hsign as [-> | [-> | ->]]; simpl in Hin; intuition. }
  split.
  - destruct (le_lt_dec (occurrences "G" s) 1) as [Hle | Hgt]; [exact Hle |].
    apply occurrences_deleteFirst, Hall in Hgt.
    destruct Hgt as [H | [H | H]]; discriminate.
  - intros c Hin. apply (in_deleteFirst "G"%char) in Hin.
    destruct Hin as [-> | Hin]; [auto |]. apply Hall in Hin. tauto.
Qed.

Lemma StringToInt_accepts_digits_and_one_G_witness :
  StringToInt strconv.Arch64 "+25G" = (25, None)
  /\ (occurrences "G" "+25G" <= 1)%nat.
Proof.
  split; [reflexivity |].
  apply (StringToInt_accepts_digits_and_one_G strconv.Arch64 "+25G" 25).
  reflexivity.
Defined.

(** *** Printing a number and reading it back *)

Lemma uintValue_lower_bound (d : Decimal.uint) :
  forall acc, 0 <= acc -> acc <= uintValue d acc.
Proof.
  induction d; intros acc Hacc; simpl; try lia;
    (etransitivity; [| apply IHd]; lia).
Qed.

Lemma uintValue_of_lu (d : Decimal.uint) :
  forall acc,
    uintValue d acc
    = Z.of_N (Unsigned.of_lu (Decimal.rev d))
      + acc * 10 ^ Z.of_N (Unsigned.usize d).
Proof.
  induction d; intros acc; simpl uintValue;
    [simpl; lia | ..];
    rewrite IHd;
    match goal with
    | |- context [Decimal.rev (?D d)] =>
        change (Decimal.rev (D d)) with (Decimal.revapp d (D Decimal.Nil));
        rewrite (Unsigned.of_lu_revapp d (D Decimal.Nil))
    end;
    simpl Unsigned.of_lu; simpl Unsigned.usize;
    rewrite N2Z.inj_add, N2Z.inj_mul, N2Z.inj_pow, N2Z.inj_succ,
      Z.pow_succ_r by lia;
    change (Z.of_N 10) with 10; simpl Z.of_N; ring.
Qed.

Lemma uintValue_to_uint (p : positive) :
  uintValue (Pos.to_uint p) 0 = Z.pos p.
Proof.
  rewrite uintValue_of_lu, <- Unsigned.of_uint_alt, Unsigned.of_to.
  simpl. lia.
Qed.

Lemma parseDigits_string_of_uint (maxVal : Z) (d : Decimal.uint) :
  forall n,
    0 <= n -> uintValue d n <= maxVal ->
    strconv.parseDigits maxVal (NilEmpty.string_of_uint d) n
    = strconv.Value (uintValue d n).
Proof.
  induction d; intros n Hn Hmax; [reflexivity | ..];
    simpl NilEmpty.string_of_uint; simpl uintValue in Hmax |- *;
    cbn [strconv.parseDigits];
    match goal with
    | |- context [Z.of_nat (nat_of_ascii ?c) - 48] =>
        let k := eval vm_compute in (Z.of_nat (nat_of_ascii c) - 48) in
        change (Z.of_nat (nat_of_ascii c) - 48) with k
    end;
    cbn [Z.ltb Z.compare orb];
    match goal with
    | |- context [?x >? maxVal] =>
        pose proof (uintValue_lower_bound d x ltac:(lia));
        destruct (Z.gtb_spec x maxVal); [lia |]
    end;
    apply IHd; lia.
Qed.

Lemma string_of_uint_digits (d : Decimal.uint) (c : ascii) :
  In c (bytes (NilEmpty.string_of_uint d)) -> isDigit c = true.
Proof.
  induction d; simpl; try tauto; intros [<- | Hin]; auto.
Qed.

Lemma string_of_uint_head (d : Decimal.uint) :
  d <> Decimal.Nil ->
  exists c rest,
    NilEmpty.string_of_uint d = String c rest /\ isDigit c = true.
Proof.
  destruct d; [intros H; now elim H | ..]; intros _; simpl;
    eexists _, _; split; reflexivity.
Qed.

(** strconv.Atoi reads back what [%d] prints of a value of [int]. *)
Lemma Atoi_decimal (a : strconv.Arch) (n : Z) :
  minInt a <= n <= maxInt a ->
  strconv.Atoi a (fmt.decimal n) = (n, None).
Proof.
  destruct (int_bounds a) as (Hcut & Hmax & Hmin & Hpos).
  intros Hn. unfold fmt.decimal, strconv.Atoi. rewrite Hcut, Hmax.
  destruct n as [|p|p].
  - destruct a; reflexivity.
  - simpl Z.to_int. simpl NilEmpty.string_of_int.
    destruct (string_of_uint_head (Pos.to_uint p) (Unsigned.to_uint_nonnil p))
      as (c & rest & Hs & Hc).
    pose proof (parseDigits_string_of_uint (2 * maxInt a + 1) (Pos.to_uint p) 0)
      as Hparse.
    rewrite uintValue_to_uint in Hparse.
    rewrite Hs in Hparse |- *.
    assert ((c =? "-")%char = false) as ->
        by (destruct (Ascii.eqb_spec c "-") as [-> | _];
            [discriminate | reflexivity]).
    assert ((c =? "+")%char = false) as ->
        by (destruct (Ascii.eqb_spec c "+") as [-> | _];
            [discriminate | reflexivity]).
    cbn [orb negb andb]. rewrite Hparse by lia.
    replace (Z.pos p >=? maxInt a + 1) with false
      by (symmetry; rewrite Z.geb_leb; apply Z.leb_gt; lia).
    reflexivity.
  - simpl Z.to_int. simpl NilEmpty.string_of_int.
    destruct (string_of_uint_head (Pos.to_uint p) (Unsigned.to_uint_nonnil p))
      as (c & rest & Hs & Hc).
    pose proof (parseDigits_string_of_uint (2 * maxInt a + 1) (Pos.to_uint p) 0)
      as Hparse.
    rewrite uintValue_to_uint in Hparse.
    rewrite Hs in Hparse |- *.
    change ("-" =? "-")%char with true. cbn [orb negb andb].
    rewrite Hparse by lia.
    replace (Z.pos p >? maxInt a + 1) with false
      by (symmetry; rewrite Z.gtb_ltb; apply Z.ltb_ge; lia).
    reflexivity.
Qed.

Lemma decimal_has_no_G (n : Z) : ~ In "G"%char (bytes (fmt.decimal n)).
Proof.
  unfold fmt.decimal. intros Hin.
  destruct n as [|p|p]; simpl in Hin.
  - destruct Hin as [H | []]. discriminate.
  - apply string_of_uint_digits in Hin. discriminate.
  - destruct Hin as [H | Hin]; [discriminate |].
    apply string_of_uint_digits in Hin. discriminate.
Qed.

(** X12: StringToInt reads back every value of [int] from its decimal form,
    with or without a "G" after it. *)
Theorem StringToInt_reads_decimal (a : strconv.Arch) (n : Z) :
  minInt a <= n <= maxInt a ->
  StringToInt a (fmt.decimal n ++ "G") = (n, None)
  /\ StringToInt a (fmt.decimal n) = (n, None).
Proof.
  intros Hn. unfold StringToInt.
  rewrite !(Replace_first_by_empty "G"%char).
  rewrite (deleteFirst_found "G"%char _ "" (decimal_has_no_G n)).
  rewrite append_empty_r.
  rewrite (deleteFirst_absent "G"%char _ (decimal_has_no_G n)).
  rewrite (Atoi_decimal a n Hn). split; reflexivity.
Qed.

Lemma StringToInt_reads_decimal_witness :
  (minInt strconv.Arch64 <= 250 <= maxInt strconv.Arch64)
  /\ StringToInt strconv.Arch64 "250G" = (250, None)
  /\ StringToInt strconv.Arch64 "250" = (250, None).
Proof.
  assert (minInt strconv.Arch64 <= 250 <= maxInt strconv.Arch64) as Hn
      by (vm_compute; split; discriminate).
  split; [exact Hn |].
  apply (StringToInt_reads_decimal strconv.Arch64 250 Hn).
Defined.

(** ** RetryUntilSuccessOrTimeout: sleeps, deadline and blocking time *)

Section RetryRounds.
Variable World : Type.
Variable clock : World -> Z.
Variable sleep : Z -> World -> World.
Variable fn : FunctionWithError World.
Variables interval timeout : Z.

Let loop := retryLoop clock sleep fn interval timeout.
Let retry := RetryUntilSuccessOrTimeout clock sleep fn interval timeout.

Lemma retryLoop_rounds (fuel : nat) :
  forall start w,
    (forall d, In (EvSleep d) (traceOf (loop fuel start w)) -> d = interval)
    /\ (forall r, resultOf (loop fuel start w) = Returned r ->
                  countCalls (traceOf (loop fuel start w))
                  = S (countSleeps (traceOf (loop fuel start w))))
    /\ (forall pre elapsed post,
           traceOf (loop fuel start w) = (pre ++ EvSince elapsed :: post)%list ->
           (timeout < elapsed <-> post = [])).
Proof.
  unfold loop. induction fuel as [|fuel IH]; intros start w.
  - simpl. split; [intros d [] |]. split; [discriminate |].
    intros [|x pre] el post H; discriminate.
  - cbn [retryLoop].
    destruct (fn w) as [[e|] w1].
    + destruct (Z.gtb_spec (clock w1 - start) timeout) as [Hlate | Hearly].
      * split; [intros d [H | [H | []]]; discriminate |].
        split; [reflexivity |].
        intros [|x [|y [|z pre]]] el post H; try discriminate.
        injection H as _ <- <-. tauto.
      * specialize (IH start (sleep interval w1)).
        destruct (retryLoop clock sleep fn interval timeout fuel start
                    (sleep interval w1)) as [[r tr] w3].
        unfold resultOf, traceOf in IH |- *. simpl fst in IH |- *.
        simpl snd in IH |- *.
        destruct IH as (Hsleep & Hcount & Hsince).
        split; [| split].
        -- intros d [H | [H | [H | [H | H]]]]; try discriminate.
           ++ now injection H as <-.
           ++ now apply Hsleep.
        -- intros r' Hr. unfold countCalls, countSleeps in *. simpl.
           f_equal. now apply (Hcount r').
        -- intros [|x [|y [|z [|u pre]]]] el post H; try discriminate.
           ++ injection H as _ <- <-. split; [lia | discriminate].
           ++ injection H as _ _ _ _ H. now apply (Hsince pre).
    + split; [intros d [H | []]; discriminate |].
      split; [reflexivity |].
      intros [|x [|y pre]] el post H; discriminate.
Qed.

(** X21: No backoff and no jitter: every sleep of a run lasts [interval], and a
    run that returns has slept once between two calls, so once less than it
    has called [fn]. *)
Theorem retry_sleeps_interval_between_calls
    (fuel : nat) (w : World) (r : option error) :
  resultOf (retry fuel w) = Returned r ->
  countCalls (traceOf (retry fuel w)) = S (countSleeps (traceOf (retry fuel w)))
  /\ forall d, In (EvSleep d) (traceOf (retry fuel w)) -> d = interval.
Proof.
  unfold retry, RetryUntilSuccessOrTimeout.
  destruct (retryLoop_rounds fuel (clock w) w) as (Hsleep & Hcount & _).
  unfold loop in *.
  destruct (retryLoop clock sleep fn interval timeout fuel (clock w) w)
    as [[r' tr] w'].
  unfold resultOf, traceOf in *. simpl fst in *. simpl snd in *.
  intros Hr. split.
  - unfold countCalls, countSleeps in *. simpl. now apply (Hcount r).
  - intros d [H | H]; [discriminate | now apply Hsleep].
Qed.


(** X23: The result of a run and the world it leaves do not depend on which
    errors the failed calls reported. *)
Theorem retry_ignores_reported_errors
    (fn' : FunctionWithError World) (fuel : nat) (w : World) :
  sameButForErrors fn fn' ->
  resultOf (retry fuel w)
  = resultOf (RetryUntilSuccessOrTimeout clock sleep fn' interval timeout fuel w)
  /\ worldOf (retry fuel w)
     = worldOf (RetryUntilSuccessOrTimeout clock sleep fn' interval timeout
                  fuel w).
Proof.
  intros Hsame. unfold retry, RetryUntilSuccessOrTimeout.
  pose proof (retryLoop_ignores_errors World clock sleep fn fn' interval
                timeout Hsame fuel (clock w) w) as H.
  destruct (retryLoop clock sleep fn interval timeout fuel (clock w) w)
    as [[r tr] w1].
  destruct (retryLoop clock sleep fn' interval timeout fuel (clock w) w)
    as [[r' tr'] w1'].
  exact H.
Qed.

Section BlockingTime.
Variable duration : Z.

(** A call takes at most [duration], and a sleep does not last longer than
    asked. *)
Hypothesis call_bounded : forall w, clock (snd (fn w)) <= clock w + duration.
Hypothesis sleep_bounded :
  forall w, clock (sleep interval w) <= clock w + interval.

Lemma retryLoop_blocking_time (fuel : nat) :
  forall start w r,
    clock w - start <= Z.max 0 (timeout + interval) ->
    resultOf (loop fuel start w) = Returned r ->
    clock (worldOf (loop fuel start w)) - start
    <= Z.max 0 (timeout + interval) + duration.
Proof.
  unfold loop. induction fuel as [|fuel IH]; intros start w r Hw.
  - discriminate.
  - cbn [retryLoop]. pose proof (call_bounded w) as Hcall.
    destruct (fn w) as [[e|] w1]; simpl snd in Hcall.
    + destruct (Z.gtb_spec (clock w1 - start) timeout) as [Hlate | Hearly].
      * intros _. unfold worldOf. simpl. lia.
      * pose proof (sleep_bounded w1) as Hsleep.
        specialize (IH start (sleep interval w1) r ltac:(lia)).
        destruct (retryLoop clock sleep fn interval timeout fuel start
                    (sleep interval w1)) as [[r' tr] w3].
        exact IH.
    + intros _. unfold worldOf. simpl. lia.
Qed.

(** X24: A run that returns has blocked its caller for at most the timeout, one
    interval and one call. *)
Theorem retry_blocking_time (fuel : nat) (w : World) (r : option error) :
  resultOf (retry fuel w) = Returned r ->
  clock (worldOf (retry fuel w)) - clock w
  <= Z.max 0 (timeout + interval) + duration.
Proof.
  unfold retry, RetryUntilSuccessOrTimeout.
  pose proof (retryLoop_blocking_time fuel (clock w) w r ltac:(lia)) as H.
  unfold loop in H.
  destruct (retryLoop clock sleep fn interval timeout fuel (clock w) w)
    as [[r' tr] w'].
  exact H.
Qed.
End BlockingTime.
End RetryRounds.

Lemma retry_sleeps_interval_between_calls_witness :
  let run :=
    RetryUntilSuccessOrTimeout twClock testSleep (failsFirst 2 millisecond)
      (10 * millisecond) (1000 * millisecond) 5 testStart in
  resultOf run = Returned None
  /\ countCalls (traceOf run) = 3%nat
  /\ countSleeps (traceOf run) = 2%nat
  /\ countCalls (traceOf run) = S (countSleeps (traceOf run)).
Proof.
  cbv zeta. split; [vm_compute; reflexivity |].
  split; [vm_compute; reflexivity |].
  split; [vm_compute; reflexivity |].
  apply (retry_sleeps_interval_between_calls testWorld twClock testSleep
           (failsFirst 2 millisecond) (10 * millisecond) (1000 * millisecond)
           5 testStart None).
  vm_compute. reflexivity.
Defined.


Lemma retry_ignores_reported_errors_witness :
  resultOf (RetryUntilSuccessOrTimeout twClock testSleep
              (failsFirstWith (errors.New "not ready") 2 millisecond)
              (10 * millisecond) (1000 * millisecond) 5 testStart)
  = resultOf (RetryUntilSuccessOrTimeout twClock testSleep
                (failsFirstWith (errors.New "connection refused") 2 millisecond)
                (10 * millisecond) (1000 * millisecond) 5 testStart).
Proof.
  apply (retry_ignores_reported_errors testWorld twClock testSleep
           (failsFirstWith (errors.New "not ready") 2 millisecond)
           (10 * millisecond) (1000 * millisecond)
           (failsFirstWith (errors.New "connection refused") 2 millisecond)
           5 testStart).
  intros w. unfold failsFirstWith. simpl.
  destruct (twCalls w <? 2)%nat; split; try reflexivity;
    split; intros H; try discriminate; reflexivity.
Defined.

Lemma retry_blocking_time_witness :
  let run :=
    RetryUntilSuccessOrTimeout twClock testSleep (failsFirst 100 millisecond)
      (10 * millisecond) (50 * millisecond) 10 testStart in
  resultOf run = Returned (Some (errors.New "timeout reached"))
  /\ twClock (worldOf run) - twClock testStart
     <= Z.max 0 (50 * millisecond + 10 * millisecond) + millisecond.
Proof.
  cbv zeta. split; [vm_compute; reflexivity |].
  apply (retry_blocking_time testWorld twClock testSleep
           (failsFirst 100 millisecond) (10 * millisecond) (50 * millisecond)
           millisecond)
    with (r := Some (errors.New "timeout reached")).
  - intros w. simpl. lia.
  - intros w. simpl. unfold millisecond. lia.
  - vm_compute. reflexivity.
Defined.

Lemma RetryUntilSuccessOrTimeout_returns_witness :
  exists r,
    resultOf (RetryUntilSuccessOrTimeout twClock testSleep
                (failsFirst 100 millisecond)
                (10 * millisecond) (50 * millisecond)
                (S (Z.to_nat (50 * millisecond / (10 * millisecond) + 1)))
                testStart)
    = Returned r.
Proof.
  apply (RetryUntilSuccessOrTimeout_returns testWorld twClock testSleep
           (failsFirst 100 millisecond) (10 * millisecond) (50 * millisecond)).
  - vm_compute. reflexivity.
  - intros w. simpl. unfold millisecond. lia.
  - intros w. simpl. unfold millisecond. lia.
Defined.
